(** * disk_cleaner.py: the task queue, the worker pool and the task dispatch

    A shallow embedding of the core of [SystemAnalyzer]
    (src/disk_cleaner.py): [process_task], [worker_function],
    [start_workers], [stop_workers] and the objects they act on
    ([event_queue], [metrics], [workers], [running]).

    Library code the program calls is modelled by its documented
    behaviour: [hashlib.sha256] by SHA-256 (FIPS 180-4) on bytes,
    [queue.Queue] by a FIFO sequence, [sorted] by a sort, the [random]
    module by an entropy tape that every draw advances. *)

From Stdlib Require Import ZArith QArith List String Ascii Lia.
From stdpp Require Import base decidable option list sorting numbers strings pretty gmap fin_maps.

Local Open Scope Z_scope.

(** ** hashlib.sha256 *)

Module Sha256.

(** 32-bit words are kept as [Z] in [0, 2^32); every operation that can
    leave that range is followed by [wrap32]. *)
Definition mask32 : Z := 0xFFFFFFFF.
Definition wrap32 (x : Z) : Z := Z.land x mask32.
Definition add32 (x y : Z) : Z := wrap32 (x + y).
Definition not32 (x : Z) : Z := Z.lxor x mask32.
Definition rotr (n x : Z) : Z :=
  Z.lor (Z.shiftr x n) (wrap32 (Z.shiftl x (32 - n))).

Definition Ch (x y z : Z) : Z := Z.lxor (Z.land x y) (Z.land (not32 x) z).
Definition Maj (x y z : Z) : Z :=
  Z.lxor (Z.lxor (Z.land x y) (Z.land x z)) (Z.land y z).
Definition Sum0 (x : Z) : Z := Z.lxor (Z.lxor (rotr 2 x) (rotr 13 x)) (rotr 22 x).
Definition Sum1 (x : Z) : Z := Z.lxor (Z.lxor (rotr 6 x) (rotr 11 x)) (rotr 25 x).
Definition sig0 (x : Z) : Z := Z.lxor (Z.lxor (rotr 7 x) (rotr 18 x)) (Z.shiftr x 3).
Definition sig1 (x : Z) : Z := Z.lxor (Z.lxor (rotr 17 x) (rotr 19 x)) (Z.shiftr x 10).

Definition round_constants : list Z :=
  [ 0x428A2F98; 0x71374491; 0xB5C0FBCF; 0xE9B5DBA5;
    0x3956C25B; 0x59F111F1; 0x923F82A4; 0xAB1C5ED5;
    0xD807AA98; 0x12835B01; 0x243185BE; 0x550C7DC3;
    0x72BE5D74; 0x80DEB1FE; 0x9BDC06A7; 0xC19BF174;
    0xE49B69C1; 0xEFBE4786; 0x0FC19DC6; 0x240CA1CC;
    0x2DE92C6F; 0x4A7484AA; 0x5CB0A9DC; 0x76F988DA;
    0x983E5152; 0xA831C66D; 0xB00327C8; 0xBF597FC7;
    0xC6E00BF3; 0xD5A79147; 0x06CA6351; 0x14292967;
    0x27B70A85; 0x2E1B2138; 0x4D2C6DFC; 0x53380D13;
    0x650A7354; 0x766A0ABB; 0x81C2C92E; 0x92722C85;
    0xA2BFE8A1; 0xA81A664B; 0xC24B8B70; 0xC76C51A3;
    0xD192E819; 0xD6990624; 0xF40E3585; 0x106AA070;
    0x19A4C116; 0x1E376C08; 0x2748774C; 0x34B0BCB5;
    0x391C0CB3; 0x4ED8AA4A; 0x5B9CCA4F; 0x682E6FF3;
    0x748F82EE; 0x78A5636F; 0x84C87814; 0x8CC70208;
    0x90BEFFFA; 0xA4506CEB; 0xBEF9A3F7; 0xC67178F2 ].

(** The chaining value: eight words a..h. *)
Record chain := Chain { ca : Z; cb : Z; cc : Z; cd : Z; ce : Z; cf : Z; cg : Z; ch : Z }.

Definition initial_chain : chain :=
  Chain 0x6A09E667 0xBB67AE85 0x3C6EF372 0xA54FF53A
        0x510E527F 0x9B05688C 0x1F83D9AB 0x5BE0CD19.

(** Padding: a 1 bit, zeros up to 56 mod 64 bytes, then the bit length
    as a 64-bit big-endian integer. *)
Fixpoint be_bytes (n : nat) (x : Z) : list Z :=
  match n with
  | O => []
  | S k => Z.land (Z.shiftr x (8 * Z.of_nat k)) 0xFF :: be_bytes k x
  end.

Definition pad (msg : list Z) : list Z :=
  let len := Z.of_nat (length msg) in
  let zeros := Z.to_nat ((55 - len) mod 64) in
  msg ++ 0x80 :: repeat 0 zeros ++ be_bytes 8 (8 * len).

Definition be_word (b0 b1 b2 b3 : Z) : Z :=
  Z.lor (Z.lor (Z.shiftl b0 24) (Z.shiftl b1 16)) (Z.lor (Z.shiftl b2 8) b3).

Fixpoint words_of_bytes (fuel : nat) (bs : list Z) : list Z :=
  match fuel, bs with
  | S k, b0 :: b1 :: b2 :: b3 :: rest => be_word b0 b1 b2 b3 :: words_of_bytes k rest
  | _, _ => []
  end.

(** The message schedule, newest word first: from W[t-1] .. W[t-16]
    compute W[t]. *)
Definition next_w (rev_w : list Z) : Z :=
  add32 (add32 (sig1 (nth 1 rev_w 0)) (nth 6 rev_w 0))
        (add32 (sig0 (nth 14 rev_w 0)) (nth 15 rev_w 0)).

Fixpoint extend (n : nat) (rev_w : list Z) : list Z :=
  match n with
  | O => rev_w
  | S k => extend k (next_w rev_w :: rev_w)
  end.

Definition schedule (block : list Z) : list Z :=
  rev (extend 48 (rev block)).

Definition round (c : chain) (kw : Z * Z) : chain :=
  let t1 := add32 (add32 (add32 (ch c) (Sum1 (ce c))) (Ch (ce c) (cf c) (cg c)))
                  (add32 (fst kw) (snd kw)) in
  let t2 := add32 (Sum0 (ca c)) (Maj (ca c) (cb c) (cc c)) in
  Chain (add32 t1 t2) (ca c) (cb c) (cc c) (add32 (cd c) t1) (ce c) (cf c) (cg c).

Definition compress (c : chain) (block : list Z) : chain :=
  let r := fold_left round (combine round_constants (schedule block)) c in
  Chain (add32 (ca c) (ca r)) (add32 (cb c) (cb r)) (add32 (cc c) (cc r))
        (add32 (cd c) (cd r)) (add32 (ce c) (ce r)) (add32 (cf c) (cf r))
        (add32 (cg c) (cg r)) (add32 (ch c) (ch r)).

Fixpoint blocks (fuel : nat) (ws : list Z) : list (list Z) :=
  match fuel, ws with
  | S k, _ :: _ => firstn 16 ws :: blocks k (skipn 16 ws)
  | _, _ => []
  end.

Definition digest_words (msg : list Z) : list Z :=
  let padded := pad msg in
  let ws := words_of_bytes (length padded) padded in
  let c := fold_left compress (blocks (length ws) ws) initial_chain in
  [ca c; cb c; cc c; cd c; ce c; cf c; cg c; ch c].

(** The digest as 32 bytes. *)
Definition digest (msg : list Z) : list Z :=
  flat_map (be_bytes 4) (digest_words msg).

Definition hex_digit (d : Z) : ascii :=
  if d <? 10 then ascii_of_nat (Z.to_nat (48 + d))
  else ascii_of_nat (Z.to_nat (87 + d)).

Fixpoint hex_of_bytes (bs : list Z) : string :=
  match bs with
  | [] => EmptyString
  | b :: rest =>
      String (hex_digit (Z.shiftr b 4))
        (String (hex_digit (Z.land b 0xF)) (hex_of_bytes rest))
  end.

(** [hashlib.sha256(data).hexdigest()] *)
Definition hexdigest (msg : list Z) : string := hex_of_bytes (digest msg).

End Sha256.

(** [s.encode()]: the bytes of a string; the strings encoded here are
    decimal numerals, which are ASCII. *)
Definition encode (s : string) : list Z :=
  map (fun c => Z.of_nat (nat_of_ascii c)) (list_ascii_of_string s).


(** ** The random module

    The generator is an entropy tape read left to right: every call of
    [random.randint] or [random.random] consumes one cell.  Quantifying
    over the tape quantifies over every outcome of the draws. *)

Record Rng := MkRng { tape : nat -> N; pos : nat }.

Definition draw (r : Rng) : N * Rng :=
  (tape r (pos r), MkRng (tape r) (S (pos r))).

(** [random.randint(a, b)]: an integer n with a <= n <= b. *)
Definition randint (a b : Z) (r : Rng) : Z * Rng :=
  let (raw, r') := draw r in (a + Z.of_N raw mod (b - a + 1), r').

(** [random.random()]: a float k * 2^-53 with 0 <= k < 2^53, represented
    by its numerator k.  On these values the order of the floats is the
    order of the numerators. *)
Definition float_scale : N := (2 ^ 53)%N.

Definition random_random (r : Rng) : N * Rng :=
  let (raw, r') := draw r in ((raw mod float_scale)%N, r').

Definition float_value (k : N) : Q := Qmake (Z.of_N k) (2 ^ 53)%positive.

(** ** Values *)

(** What [process_task] returns: a hex digest, an integer sum, or a float
    (as its numerator, see [random_random]). *)
Inductive result :=
| RStr (s : string)
| RInt (n : Z)
| RFloat (k : N).

Inductive exn :=
| QueueEmpty
| AttributeError
| IndexError
| ValueError.

Inductive outcome (A : Type) :=
| Ok (a : A)
| Raise (e : exn).
Arguments Ok {A} a.
Arguments Raise {A} e.

(** A task dictionary as [main] builds it; a key may be absent. *)
Record Task := MkTask {
  d_type : option string;
  d_id : option Z;
  d_timestamp : option N
}.

(** What a put can leave in the queue: a task dictionary, or an object
    that has no [get] method (None, a number, a string). *)
Inductive item :=
| ItemDict (d : Task)
| ItemOther (repr : string).

(** [d.get(key, dflt)] *)
Definition dict_get {A} (field : option A) (dflt : A) : A :=
  match field with
  | Some v => v
  | None => dflt
  end.

(** [sorted(arr)] on floats in [0, 1), ascending. *)
Definition sorted (arr : list N) : list N := merge_sort N.le arr.

(** ** process_task *)

(** [sys.get_int_max_str_digits()]: the interpreter's default limit on
    the digits of an integer converted to a string (CPython 3.11 on). *)
Definition int_max_str_digits : Z := 4300.

(** The number of digits of the decimal form of an integer, the sign
    not counted. *)
Definition decimal_digits (i : Z) : Z :=
  Z.of_nat (String.length (pretty (Z.abs i))).

(** [str(i)] on an integer: the decimal numeral, or ValueError when it
    has more digits than the limit. *)
Definition str_int (i : Z) : outcome string :=
  if decimal_digits i <=? int_max_str_digits then Ok (pretty i)
  else Raise ValueError.

(** [sum(random.randint(1, 100) for _ in range(n))] *)
Fixpoint sum_randints (n : nat) (acc : Z) (r : Rng) : Z * Rng :=
  match n with
  | O => (acc, r)
  | S k => let (x, r') := randint 1 100 r in sum_randints k (acc + x) r'
  end.

(** [[random.random() for _ in range(n)]] *)
Fixpoint random_floats (n : nat) (r : Rng) : list N * Rng :=
  match n with
  | O => ([], r)
  | S k =>
      let (x, r1) := random_random r in
      let (xs, r2) := random_floats k r1 in
      (x :: xs, r2)
  end.

(** Lines 81-82.  The default of the second [get] is an argument, so the
    draw is made whether or not the task carries an id. *)
Definition task_fields (d : Task) (r : Rng) : string * Z * Rng :=
  let task_type := dict_get (d_type d) "unknown"%string in
  let (fresh, r1) := randint 1 1000000 r in
  let task_id := dict_get (d_id d) fresh in
  (task_type, task_id, r1).

(** Lines 84-92. *)
Definition dispatch (task_type : string) (task_id : Z) (r : Rng)
  : outcome result * Rng :=
  if String.eqb task_type "hash" then
    match str_int task_id with
    | Ok s => (Ok (RStr (Sha256.hexdigest (encode s))), r)
    | Raise e => (Raise e, r)
    end
  else if String.eqb task_type "math" then
    let (s, r') := sum_randints 1000 0 r in (Ok (RInt s), r')
  else if String.eqb task_type "sort" then
    let (arr, r') := random_floats 5000 r in
    match sorted arr !! Nat.div (length arr) 2 with
    | Some x => (Ok (RFloat x), r')
    | None => (Raise IndexError, r')
    end
  else
    let (x, r') := random_random r in (Ok (RFloat x), r').

Definition process_task (task : item) (worker_id : Z) (r : Rng)
  : outcome result * Rng :=
  match task with
  | ItemOther _ => (Raise AttributeError, r)
  | ItemDict d =>
      let '(task_type, task_id, r1) := task_fields d r in
      dispatch task_type task_id r1
  end.

(** A task dictionary that [str] accepts: it is not a hash task whose
    id has more digits than the limit. *)
Definition task_fits (d : Task) : bool :=
  match d_type d, d_id d with
  | Some ty, Some i =>
      if String.eqb ty "hash" then decimal_digits i <=? int_max_str_digits
      else true
  | _, _ => true
  end.

(** ** SystemAnalyzer: the pool object *)

(** [queue.Queue]: an unbounded FIFO; [put] appends at the tail, [get]
    removes the head and raises [queue.Empty] once the timeout expires
    on an empty queue. *)
Definition queue_put (x : item) (q : list item) : list item := q ++ [x].

Definition queue_get (q : list item) : outcome item * list item :=
  match q with
  | [] => (Raise QueueEmpty, q)
  | x :: rest => (Ok x, rest)
  end.

(** The fields of [self] the core reads or writes.  A worker handle is
    the index of its thread in the thread table of the process. *)
Record SystemAnalyzer := MkAnalyzer {
  cpu_count : Z;
  metrics : gmap string (list result);
  event_queue : list item;
  workers : list nat;
  running : bool
}.

(** Where a worker thread stands in [worker_function]. *)
Inductive pc :=
| PcCheck                 (* about to test [self.running] *)
| PcGet                   (* about to call [event_queue.get] *)
| PcProcess (task : item) (* holds a task, about to call [process_task] *)
| PcAppend (res : result) (* holds a result, about to append it *)
| PcExited                (* left the loop: [running] was false *)
| PcDied (e : exn).       (* an exception left [worker_function] *)

Record Thread := MkThread {
  th_wid : Z;
  th_daemon : bool;
  th_pc : pc
}.

(** The process: the pool object, the threads it has started and the
    state of the [random] module, which all threads share. *)
Record World := MkWorld {
  self : SystemAnalyzer;
  threads : list Thread;
  rng : Rng
}.

(** [SystemAnalyzer()]; [hw] is what [os.cpu_count()] returns. *)
Definition init_analyzer (hw : option Z) : SystemAnalyzer :=
  let cpus := match hw with
              | Some n => if n =? 0 then 1 else n
              | None => 1
              end in
  MkAnalyzer cpus ∅ [] [] true.

Definition init (hw : option Z) (r : Rng) : World :=
  MkWorld (init_analyzer hw) [] r.

(** [f'worker_{worker_id}'] *)
Definition worker_key (worker_id : Z) : string :=
  ("worker_" +:+ pretty worker_id)%string.

(** [self.metrics[key].append(result)] on a [defaultdict(list)] *)
Definition metrics_append (key : string) (res : result)
    (m : gmap string (list result)) : gmap string (list result) :=
  <[key := dict_get (m !! key) [] ++ [res]]> m.

(** [range(n)]: empty when n <= 0. *)
Definition range (n : Z) : list Z := map Z.of_nat (seq 0 (Z.to_nat n)).

Definition with_queue (q : list item) (a : SystemAnalyzer) : SystemAnalyzer :=
  MkAnalyzer (cpu_count a) (metrics a) q (workers a) (running a).
Definition with_metrics (m : gmap string (list result)) (a : SystemAnalyzer)
  : SystemAnalyzer :=
  MkAnalyzer (cpu_count a) m (event_queue a) (workers a) (running a).
Definition with_workers (ws : list nat) (a : SystemAnalyzer) : SystemAnalyzer :=
  MkAnalyzer (cpu_count a) (metrics a) (event_queue a) ws (running a).
Definition with_running (b : bool) (a : SystemAnalyzer) : SystemAnalyzer :=
  MkAnalyzer (cpu_count a) (metrics a) (event_queue a) (workers a) b.

Definition set_pc (p : pc) (th : Thread) : Thread :=
  MkThread (th_wid th) (th_daemon th) p.

(** *** worker_function *)

(** [except queue.Empty: continue]: the one handler of the loop body.  It
    guards the whole [try] block, so it is applied to whatever [get] or
    [process_task] raises. *)
Definition handler (e : exn) : pc :=
  match e with
  | QueueEmpty => PcCheck
  | _ => PcDied e
  end.

(** One step of the thread [tid] running [worker_function]. *)
Definition worker_function_step (tid : nat) (w : World) : World :=
  match threads w !! tid with
  | None => w
  | Some th =>
      let goto p a r := MkWorld a (<[tid := set_pc p th]> (threads w)) r in
      match th_pc th with
      | PcCheck =>
          if running (self w) then goto PcGet (self w) (rng w)
          else goto PcExited (self w) (rng w)
      | PcGet =>
          match queue_get (event_queue (self w)) with
          | (Ok task, q) => goto (PcProcess task) (with_queue q (self w)) (rng w)
          | (Raise e, q) => goto (handler e) (with_queue q (self w)) (rng w)
          end
      | PcProcess task =>
          match process_task task (th_wid th) (rng w) with
          | (Ok res, r) => goto (PcAppend res) (self w) r
          | (Raise e, r) => goto (handler e) (self w) r
          end
      | PcAppend res =>
          goto PcCheck
            (with_metrics (metrics_append (worker_key (th_wid th)) res
                             (metrics (self w))) (self w))
            (rng w)
      | PcExited | PcDied _ => w
      end
  end.

(** *** start_workers, stop_workers *)

(** One turn of the loop of [start_workers]: create the thread with
    [args=(i,)], mark it daemon, start it, append its handle. *)
Definition spawn (w : World) (i : Z) : World :=
  MkWorld (with_workers (workers (self w) ++ [length (threads w)]) (self w))
          (threads w ++ [MkThread i true PcCheck])
          (rng w).

Definition start_workers (count : Z) (w : World) : World :=
  fold_left spawn (range (Z.min count (cpu_count (self w)))) w.

(** [join(timeout=1)] waits and then returns whether or not the thread
    has ended; it changes nothing. *)
Definition join (handle : nat) (w : World) : World := w.

Definition stop_workers (w : World) : World :=
  let w1 := MkWorld (with_running false (self w)) (threads w) (rng w) in
  fold_left (fun w' h => join h w') (workers (self w1)) w1.

(** [self.event_queue.put(task)], as [main] does. *)
Definition put (x : item) (w : World) : World :=
  MkWorld (with_queue (queue_put x (event_queue (self w))) (self w))
          (threads w) (rng w).

(** *** Interleavings *)

(** What can happen next: the caller puts a task, starts workers or
    stops the pool, or some thread takes its next step.  A worker's
    iteration is four steps (test, get, process, append), so a stop or a
    put can fall between any two of them; [start_workers] and
    [stop_workers] are single steps, as the threads they run beside touch
    none of what they write. *)
Inductive action :=
| APut (x : item)
| AStart (count : Z)
| AStop
| AStep (tid : nat).

Definition step (w : World) (a : action) : World :=
  match a with
  | APut x => put x w
  | AStart count => start_workers count w
  | AStop => stop_workers w
  | AStep tid => worker_function_step tid w
  end.

Definition run (acts : list action) (w : World) : World :=
  fold_left step acts w.

(** Observations *)
Definition is_put (a : action) : bool :=
  match a with
  | APut _ => true
  | _ => false
  end.

Definition enqueued (acts : list action) : nat :=
  length (List.filter is_put acts).

Definition total_results (m : gmap string (list result)) : nat :=
  map_fold (fun _ rs n => (length rs + n)%nat) 0%nat m.

Definition holds_task (th : Thread) : bool :=
  match th_pc th with
  | PcProcess _ | PcAppend _ => true
  | _ => false
  end.

Definition is_dead (th : Thread) : bool :=
  match th_pc th with
  | PcDied _ => true
  | _ => false
  end.

(** ** Reference definitions for the statements *)

(** The draws behind [sum_randints], in the order they are made. *)
Fixpoint randint_draws (n : nat) (r : Rng) : list Z :=
  match n with
  | O => []
  | S k => let (x, r') := randint 1 100 r in x :: randint_draws k r'
  end.

Definition sum_Z (xs : list Z) : Z := foldr Z.add 0 xs.

(** The generator as [dispatch] receives it: one draw has been made for
    the default id. *)
Definition after_fields (r : Rng) : Rng := snd (randint 1 1000000 r).

(** The array the sort branch generates. *)
Definition sort_array (r : Rng) : list N :=
  fst (random_floats 5000 (after_fields r)).

(** The lower median in the spec's words: the element of the sorted
    array at the lower of the two middle positions when the length is
    even, at the middle position when it is odd. *)
Definition lower_median (arr : list N) : option N :=
  sorted arr !! Nat.div (length arr - 1) 2.

(** A fixed tape for examples: cell n holds n. *)
Definition count_tape : Rng := MkRng N.of_nat 0.

Definition task_of (ty : string) (i : Z) : item :=
  ItemDict (MkTask (Some ty) (Some i) None).

(** [n] successive calls of [get] by a single consumer: what each call
    returned, and the queue left behind. *)
Fixpoint take_n (n : nat) (q : list item) : list (outcome item) * list item :=
  match n with
  | O => ([], q)
  | S k =>
      let (o, q1) := queue_get q in
      let (os, q2) := take_n k q1 in
      (o :: os, q2)
  end.

(** The thread [start_workers] creates for identity [i]. *)
Definition new_worker (i : Z) : Thread := MkThread i true PcCheck.

Definition count_threads (f : Thread -> bool) (ths : list Thread) : nat :=
  length (List.filter f ths).

(** Tasks taken from the queue whose result is not yet recorded. *)
Definition in_flight (w : World) : nat := count_threads holds_task (threads w).

(** Workers ended by an exception. *)
Definition dead_workers (w : World) : nat := count_threads is_dead (threads w).

(** A pool with four processors on the counting tape, for examples. *)
Definition pool4 : World := init (Some 4) count_tape.

(** Where every task put so far is: recorded as a result, held by a
    worker, still queued, or lost with the worker that died on it. *)
Definition accounted (w : World) : nat :=
  (total_results (metrics (self w)) + in_flight w
   + length (event_queue (self w)) + dead_workers w)%nat.

(** A thread whose loop has ended. *)
Definition is_final (p : pc) : bool :=
  match p with
  | PcExited | PcDied _ => true
  | _ => false
  end.

(** Example schedules: two workers, a hash task and an object that is
    no dictionary; worker 0 records the digest, worker 1 dequeues the
    other object. *)
Definition schedule_two : list action :=
  [AStart 2; APut (task_of "hash" 42); APut (ItemOther "None");
   AStep 0; AStep 0; AStep 1; AStep 1; AStep 0; AStep 0].

Definition world_two : World := run schedule_two pool4.

(** Worker 1 holds an object that is no dictionary and is about to
    process it. *)
Definition world_failing : World :=
  run [AStart 2; APut (ItemOther "None"); AStep 1; AStep 1] pool4.

(** Worker 0 is about to call [get] on an empty queue. *)
Definition world_idle : World := run [AStart 1; AStep 0] pool4.

(** Every thread's identity is below the number of workers started. *)
Definition ids_in_range (w : World) : Prop :=
  forall tid th, threads w !! tid = Some th ->
    0 <= th_wid th < Z.of_nat (length (workers (self w))).

(** Every key of [metrics] is the key of a started worker. *)
Definition keys_owned (w : World) : Prop :=
  forall k, is_Some (metrics (self w) !! k) ->
    exists tid th, threads w !! tid = Some th /\ k = worker_key (th_wid th).

(** ** The analysis functions *)

(** What the list operations of the analysis functions can raise. *)
Inductive pyerr :=
| PyIndexError
| PyValueError
| PyOverflowError.

(** [e >>= f] for a computation that may raise. *)
Definition and_then {A B} (x : pyerr + A) (f : A -> pyerr + B) : pyerr + B :=
  match x with
  | inl e => inl e
  | inr a => f a
  end.

(** [sys.maxsize] of a 64-bit interpreter: the largest list size and
    index. *)
Definition ssize_max : Z := 9223372036854775807.

(** [[x] * n]: empty for n <= 0, OverflowError when n does not fit the
    index type.  Running out of memory, which depends on the machine, is
    left out. *)
Definition list_repeat {A} (x : A) (n : Z) : pyerr + list A :=
  if (n <? - ssize_max - 1) || (ssize_max <? n) then inl PyOverflowError
  else inr (replicate (Z.to_nat n) x).

(** [range(a, b)] *)
Definition range_from (a b : Z) : list Z :=
  map (fun k => a + Z.of_nat k) (seq 0 (Z.to_nat (b - a))).

(** The position a list index denotes: a negative index counts from the
    end; outside the list there is none. *)
Definition py_index (i : Z) (len : nat) : option nat :=
  if 0 <=? i then
    if i <? Z.of_nat len then Some (Z.to_nat i) else None
  else
    if 0 <=? Z.of_nat len + i then Some (Z.to_nat (Z.of_nat len + i)) else None.

(** [l[i]] *)
Definition get_item {A} (i : Z) (l : list A) : pyerr + A :=
  match py_index i (length l) with
  | Some k =>
      match l !! k with
      | Some x => inr x
      | None => inl PyIndexError
      end
  | None => inl PyIndexError
  end.

(** [l[i] = x] *)
Definition set_item {A} (i : Z) (x : A) (l : list A) : pyerr + list A :=
  match py_index i (length l) with
  | Some k => inr (<[k := x]> l)
  | None => inl PyIndexError
  end.

(** A slice bound brought into [0, len], as the interpreter adjusts it
    for a positive step. *)
Definition clamp_bound (i len : Z) : Z :=
  if i <? 0 then Z.max 0 (i + len) else Z.min i len.

(** The positions of [l[start:stop:step]] for a step >= 1. *)
Definition slice_positions (start stop step : Z) (len : nat) : list nat :=
  let lo := clamp_bound start (Z.of_nat len) in
  let hi := clamp_bound stop (Z.of_nat len) in
  let count := if lo <? hi then (hi - lo - 1) / step + 1 else 0 in
  map (fun k => Z.to_nat (lo + Z.of_nat k * step)) (seq 0 (Z.to_nat count)).

Fixpoint assign_at {A} (ps : list nat) (vals : list A) (l : list A) : list A :=
  match ps, vals with
  | p :: ps', v :: vals' => assign_at ps' vals' (<[p := v]> l)
  | _, _ => l
  end.

(** [l[start:stop:step] = vals] for a step >= 2 (an extended slice):
    the sizes must agree. *)
Definition set_slice {A} (start stop step : Z) (vals : list A) (l : list A)
  : pyerr + list A :=
  let ps := slice_positions start stop step (length l) in
  if Nat.eqb (length ps) (length vals) then inr (assign_at ps vals l)
  else inl PyValueError.

(** *** calculate_fibonacci *)

(** [a, b = b, a + b] *)
Definition fib_step (ab : Z * Z) (_ : Z) : Z * Z := (snd ab, fst ab + snd ab).

Definition calculate_fibonacci (n : Z) : Z :=
  fst (fold_left fib_step (range n) (0, 1)).

(** *** prime_sieve *)

(** One turn of the loop: strike the multiples of [i] from [i*i] on if
    [i] is still marked. *)
Definition sieve_step (limit : Z) (i : Z) (sieve : list bool)
  : pyerr + list bool :=
  and_then (get_item i sieve) (fun marked =>
    if (marked : bool) then
      and_then (list_repeat false ((limit - i * i) / i + 1)) (fun struck =>
        set_slice (i * i) (limit + 1) i struck sieve)
    else inr sieve).

Fixpoint sieve_loop (limit : Z) (todo : list Z) (sieve : list bool)
  : pyerr + list bool :=
  match todo with
  | [] => inr sieve
  | i :: rest => and_then (sieve_step limit i sieve) (sieve_loop limit rest)
  end.

(** [[i for i, is_prime in enumerate(sieve) if is_prime]], counting from
    [i]. *)
Fixpoint marked_from (i : Z) (sieve : list bool) : list Z :=
  match sieve with
  | [] => []
  | b :: rest =>
      if b then i :: marked_from (i + 1) rest else marked_from (i + 1) rest
  end.

(** [int(limit ** 0.5)] is the integer square root for every limit
    below 2^52 (there the float square root rounds to the right side of
    each integer). *)
Definition prime_sieve (limit : Z) : pyerr + list Z :=
  and_then (list_repeat true (limit + 1)) (fun sieve =>
  and_then (set_item 0 false sieve) (fun s0 =>
  and_then (set_item 1 false s0) (fun s1 =>
  and_then (sieve_loop limit (range_from 2 (Z.sqrt limit + 1)) s1) (fun s2 =>
  inr (marked_from 0 s2))))).

(** The limits below which [prime_sieve] is modelled exactly. *)
Definition sieve_bound : Z := 4503599627370496.

(** A prime, for the statements: at least 2 and without a divisor
    strictly between 1 and itself. *)
Definition is_prime (p : Z) : Prop :=
  2 <= p /\ forall d, 1 < d < p -> ~ (d | p).

(** The state of the sieve once every i below [j] has had its turn:
    position k is struck exactly when k < 2 or some d with 2 <= d < j
    divides k and d * d <= k. *)
Definition sieved (limit j : Z) (s : list bool) : Prop :=
  length s = Z.to_nat (limit + 1) /\
  forall k b, s !! k = Some b ->
    (b = false <->
     (Z.of_nat k < 2 \/
      exists d, 2 <= d < j /\ (d | Z.of_nat k) /\ d * d <= Z.of_nat k)).

(** *** generate_hash_chain *)

(** The loop: each turn replaces the seed by its digest and records the
    first 16 characters of the digest's hex form ([seed.hex()[:16]]). *)
Fixpoint hash_chain_loop (n : nat) (seed : list Z) : list string :=
  match n with
  | O => []
  | S k =>
      let seed' := Sha256.digest seed in
      substring 0 16 (Sha256.hex_of_bytes seed') :: hash_chain_loop k seed'
  end.

(** [float_str] stands for [str] on the floats of [random.random()]
    (given by their numerators); the decimal form of a float is not
    modelled. *)
Definition generate_hash_chain (float_str : N -> string) (length : Z) (r : Rng)
  : list string * Rng :=
  let (x, r') := random_random r in
  (hash_chain_loop (Z.to_nat length) (encode (float_str x)), r').

Definition is_hex_char (c : ascii) : bool :=
  existsb (Ascii.eqb c) (list_ascii_of_string "0123456789abcdef").

(** A string of lowercase hexadecimal digits. *)
Definition is_hex_string (s : string) : bool :=
  forallb is_hex_char (list_ascii_of_string s).

(** *** simulate_memory_operations *)

(** [random.getrandbits(k)] *)
Definition getrandbits (k : N) (r : Rng) : Z * Rng :=
  let (raw, r') := draw r in (Z.of_N (raw mod 2 ^ k), r').

(** [bytearray(random.getrandbits(8) for _ in range(n))] *)
Fixpoint random_bytes (n : nat) (r : Rng) : list Z * Rng :=
  match n with
  | O => ([], r)
  | S k =>
      let (b, r1) := getrandbits 8 r in
      let (bs, r2) := random_bytes k r1 in
      (b :: bs, r2)
  end.

(** [f"key_{i}_{x}"] *)
Definition memory_key (i x : Z) : string :=
  ("key_" +:+ pretty i +:+ "_" +:+ pretty x)%string.

(** One turn of the loop: the key is formatted first, then the length of
    the value is drawn, then its bytes. *)
Definition memory_step (st : gmap string (list Z) * Rng) (i : Z)
  : gmap string (list Z) * Rng :=
  let (x, r1) := randint 1 1000 (snd st) in
  let key := memory_key i x in
  let (n, r2) := randint 64 256 r1 in
  let (value, r3) := random_bytes (Z.to_nat n) r2 in
  (<[key := value]> (fst st), r3).

Definition simulate_memory_operations (r : Rng) : Z * Rng :=
  let (memory_map, r') := fold_left memory_step (range 5000) (∅, r) in
  (Z.of_nat (size memory_map), r').

(** Whether the character occurs in the string. *)
Fixpoint occurs (c : ascii) (s : string) : bool :=
  match s with
  | EmptyString => false
  | String c' s' => Ascii.eqb c c' || occurs c s'
  end.

(** ** Observations on schedules *)

(** How many steps of thread [tid] a schedule holds. *)
Definition is_step_of (tid : nat) (a : action) : bool :=
  match a with
  | AStep t => Nat.eqb t tid
  | _ => false
  end.

Definition own_steps (tid : nat) (acts : list action) : nat :=
  length (List.filter (is_step_of tid) acts).

(** The steps a worker still needs to leave its loop once [running] is
    false, at most. *)
Definition steps_left (p : pc) : nat :=
  match p with
  | PcGet => 4
  | PcProcess _ => 3
  | PcAppend _ => 2
  | PcCheck => 1
  | PcExited | PcDied _ => 0
  end.

(** The results recorded under a key. *)
Definition recorded (k : string) (w : World) : list result :=
  dict_get (metrics (self w) !! k) [].

(** The task an action hands to a worker: the step that takes a thread
    from its [get] to holding a task delivers that task. *)
Definition taken (w : World) (a : action) : list item :=
  match a with
  | AStep tid =>
      match threads w !! tid, threads (step w a) !! tid with
      | Some th, Some th' =>
          match th_pc th, th_pc th' with
          | PcGet, PcProcess x => [x]
          | _, _ => []
          end
      | _, _ => []
      end
  | _ => []
  end.

(** The tasks delivered to workers along a schedule, in order. *)
Fixpoint delivered (acts : list action) (w : World) : list item :=
  match acts with
  | [] => []
  | a :: rest => taken w a ++ delivered rest (step w a)
  end.

(** The tasks a schedule puts, in order. *)
Definition put_items (acts : list action) : list item :=
  flat_map (fun a => match a with APut x => [x] | _ => [] end) acts.

(** A queue item [process_task] returns on: a task dictionary whose
    id, if the task is a hash task, [str] accepts. *)
Definition item_fits (x : item) : bool :=
  match x with
  | ItemDict d => task_fits d
  | ItemOther _ => false
  end.

(** A schedule that puts such items only. *)
Definition only_fitting (acts : list action) : bool :=
  forallb (fun a => match a with APut x => item_fits x | _ => true end) acts.

(** A thread that neither died nor holds an object it will die on. *)
Definition pc_clean (p : pc) : bool :=
  match p with
  | PcProcess x => item_fits x
  | PcDied _ => false
  | _ => true
  end.

Definition clean (w : World) : Prop :=
  Forall (fun x => item_fits x = true) (event_queue (self w)) /\
  Forall (fun th => pc_clean (th_pc th) = true) (threads w).

(** One worker and one hash task waiting. *)
Definition world_ready : World :=
  run [AStart 1; APut (task_of "hash" 42)] pool4.

(** Worker 0 holds the digest of task 42 and is about to record it. *)
Definition world_appending : World :=
  run [AStart 2; APut (task_of "hash" 42); AStep 0; AStep 0; AStep 0] pool4.

(** A schedule of task dictionaries: one worker runs one full turn of
    its loop on a hash task. *)
Definition schedule_dicts : list action :=
  [AStart 1; APut (task_of "hash" 42); APut (task_of "math" 7);
   AStep 0; AStep 0; AStep 0; AStep 0].

(** The pool is stopped while worker 0 waits in [get] and a task is
    queued. *)
Definition world_stopped : World :=
  run [AStart 1; APut (task_of "hash" 42); AStep 0; AStop] pool4.

(** *** run_analysis *)

(** The report, without its [system_info] entry (a snapshot of the host
    that nothing else reads). *)
Record analysis := MkAnalysis {
  hash_samples : list string;
  memory_objects : Z;
  fibonacci : Z;
  primes : nat;
  worker_count : nat
}.

(** [run_analysis] run on its own, no worker drawing from the generator
    in between: the entries are evaluated in the order of the dictionary
    display. *)
Definition run_analysis (float_str : N -> string) (w : World)
  : pyerr + (analysis * World) :=
  let (hs, r1) := generate_hash_chain float_str 500 (rng w) in
  let (mo, r2) := simulate_memory_operations r1 in
  let fb := calculate_fibonacci 40 in
  and_then (prime_sieve 20000) (fun ps =>
    inr (MkAnalysis hs mo fb (length ps) (length (workers (self w))),
         MkWorld (self w) (threads w) r2)).



(** What a step records under the key [k], told by the identity of the
    thread that takes the step: a thread about to append its result
    records it under [k] when [k] is the key of its own identity. *)
Definition writes (k : string) (w : World) (a : action) : list result :=
  match a with
  | AStep tid =>
      match threads w !! tid with
      | Some th =>
          match th_pc th with
          | PcAppend res =>
              if decide (k = worker_key (th_wid th)) then [res] else []
          | _ => []
          end
      | None => []
      end
  | _ => []
  end.

(** The results the workers whose key is [k] record along a schedule, in
    order. *)
Fixpoint written_by (k : string) (acts : list action) (w : World)
  : list result :=
  match acts with
  | [] => []
  | a :: rest => writes k w a ++ written_by k rest (step w a)
  end.

(** ** The dispatch of process_task *)

Section Dispatch.

Lemma randint_bounds a b r : a <= b -> a <= fst (randint a b r) <= b.
Proof.
  intros Hab. unfold randint, draw. cbn [fst].
  pose proof (Z.mod_pos_bound (Z.of_N (tape r (pos r))) (b - a + 1)). lia.
Qed.

(** Every value of the range is the outcome of some cell. *)
Lemma randint_onto a b v p :
  a <= v <= b -> exists t, fst (randint a b (MkRng t p)) = v.
Proof.
  intros Hv. exists (fun _ => Z.to_N (v - a)).
  unfold randint, draw. cbn [fst tape pos].
  rewrite Z2N.id by lia. rewrite Z.mod_small by lia. lia.
Qed.

Lemma random_random_bound r : (fst (random_random r) < float_scale)%N.
Proof.
  unfold random_random, draw. cbn [fst].
  apply N.mod_upper_bound. discriminate.
Qed.

Lemma float_value_unit k :
  (k < float_scale)%N -> (0 <= float_value k)%Q /\ (float_value k < 1)%Q.
Proof.
  intros Hk. unfold float_value, Qle, Qlt. cbn [Qnum Qden].
  unfold float_scale in Hk. split; lia.
Qed.

Lemma sum_randints_draws n : forall acc r,
  fst (sum_randints n acc r) = acc + sum_Z (randint_draws n r).
Proof.
  induction n as [|n IH]; intros acc r; cbn [sum_randints randint_draws].
  - unfold sum_Z. cbn. lia.
  - destruct (randint 1 100 r) as [x r'].
    rewrite IH. unfold sum_Z. cbn [foldr]. lia.
Qed.

Lemma randint_draws_length n : forall r, length (randint_draws n r) = n.
Proof.
  induction n as [|n IH]; intros r; cbn [randint_draws]; [done|].
  destruct (randint 1 100 r) as [x r']. cbn [length]. by rewrite IH.
Qed.

Lemma randint_draws_range n : forall r,
  Forall (fun x => 1 <= x <= 100) (randint_draws n r).
Proof.
  induction n as [|n IH]; intros r; cbn [randint_draws]; [constructor|].
  pose proof (randint_bounds 1 100 r) as Hb.
  destruct (randint 1 100 r) as [x r']. constructor; [apply Hb; lia | apply IH].
Qed.

Lemma sum_Z_bounds lo hi xs :
  Forall (fun x => lo <= x <= hi) xs ->
  lo * Z.of_nat (length xs) <= sum_Z xs <= hi * Z.of_nat (length xs).
Proof.
  induction 1 as [|x xs Hx _ IH]; unfold sum_Z in *; cbn [foldr length]; lia.
Qed.

Lemma random_floats_length n : forall r, length (fst (random_floats n r)) = n.
Proof.
  induction n as [|n IH]; intros r; cbn [random_floats]; [done|].
  destruct (random_random r) as [x r1]. specialize (IH r1).
  destruct (random_floats n r1) as [xs r2]. cbn [fst length] in *. by rewrite IH.
Qed.

Lemma random_floats_unit n : forall r,
  Forall (fun k => (k < float_scale)%N) (fst (random_floats n r)).
Proof.
  induction n as [|n IH]; intros r; cbn [random_floats]; [constructor|].
  pose proof (random_random_bound r) as Hb.
  destruct (random_random r) as [x r1]. specialize (IH r1).
  destruct (random_floats n r1) as [xs r2]. cbn [fst] in *. by constructor.
Qed.

Lemma sorted_length arr : length (sorted arr) = length arr.
Proof. unfold sorted. by rewrite merge_sort_Permutation. Qed.

Lemma sorted_ordered arr i j x y :
  sorted arr !! i = Some x -> sorted arr !! j = Some y ->
  (i <= j)%nat -> (x <= y)%N.
Proof.
  unfold sorted. intros Hi Hj Hij.
  pose proof (StronglySorted_merge_sort N.le arr) as Hs.
  revert i j Hi Hj Hij.
  induction Hs as [|z l Hs IH Hz]; intros i j Hi Hj Hij; [done|].
  destruct i as [|i], j as [|j]; simplify_eq/=; try lia.
  - rewrite Forall_forall in Hz. apply Hz. by eapply list_elem_of_lookup_2.
  - eapply IH; eauto. lia.
Qed.

(** The branches, one equation each. *)
Lemma dispatch_hash_str i r :
  dispatch "hash" i r =
  match str_int i with
  | Ok s => (Ok (RStr (Sha256.hexdigest (encode s))), r)
  | Raise e => (Raise e, r)
  end.
Proof. reflexivity. Qed.

Lemma str_int_fits i :
  decimal_digits i <= int_max_str_digits -> str_int i = Ok (pretty i).
Proof.
  intros Hi. unfold str_int.
  by destruct (Z.leb_spec (decimal_digits i) int_max_str_digits); [|lia].
Qed.

Lemma str_int_long i :
  int_max_str_digits < decimal_digits i -> str_int i = Raise ValueError.
Proof.
  intros Hi. unfold str_int.
  by destruct (Z.leb_spec (decimal_digits i) int_max_str_digits); [lia|].
Qed.

Lemma dispatch_hash i r :
  decimal_digits i <= int_max_str_digits ->
  dispatch "hash" i r = (Ok (RStr (Sha256.hexdigest (encode (pretty i)))), r).
Proof. intros Hi. by rewrite dispatch_hash_str, str_int_fits. Qed.

Lemma dispatch_hash_long i r :
  int_max_str_digits < decimal_digits i ->
  dispatch "hash" i r = (Raise ValueError, r).
Proof. intros Hi. by rewrite dispatch_hash_str, str_int_long. Qed.

(** A numeral below 10^k has at most k digits. *)
Lemma pretty_N_go_length k : forall (x : N) s,
  (x < 10 ^ N.of_nat k)%N ->
  (String.length (pretty_N_go x s) <= String.length s + k)%nat.
Proof.
  induction k as [|k IH]; intros x s Hx.
  - assert (x = 0%N) as -> by (cbn in Hx; lia). rewrite pretty_N_go_0. lia.
  - assert (x = 0 \/ 0 < x)%N as [->|Hpos] by lia.
    + rewrite pretty_N_go_0. lia.
    + rewrite pretty_N_go_step by done.
      etrans; [apply IH|cbn [String.length]; lia].
      apply N.Div0.div_lt_upper_bound.
      rewrite Nat2N.inj_succ, N.pow_succ_r' in Hx. lia.
Qed.

Lemma decimal_digits_bound (k : nat) i :
  (1 <= k)%nat -> Z.abs i < 10 ^ Z.of_nat k -> decimal_digits i <= Z.of_nat k.
Proof.
  intros Hk Hi. unfold decimal_digits.
  assert (HN : forall x : N, (x < 10 ^ N.of_nat k)%N ->
                (String.length (pretty x) <= k)%nat).
  { intros x Hx. unfold pretty, pretty_N. case_decide; [cbn; lia|].
    etrans; [by apply (pretty_N_go_length k)|]. cbn. lia. }
  destruct (Z.abs i) as [|p|p] eqn:Ha; [cbn; lia| |lia].
  apply inj_le. apply (HN (Npos p)).
  apply N2Z.inj_lt. rewrite N2Z.inj_pow, nat_N_Z. cbn. lia.
Qed.

(** A numeral from 10^k on has more than k digits. *)
Lemma pretty_N_go_grows (x : N) : forall s,
  (String.length s <= String.length (pretty_N_go x s))%nat.
Proof.
  induction (N.lt_wf_0 x) as [x _ IH]; intros s.
  assert (x = 0 \/ 0 < x)%N as [->|Hpos] by lia.
  - by rewrite pretty_N_go_0.
  - rewrite pretty_N_go_step by done.
    etrans; [|apply IH; by apply N.div_lt]. cbn [String.length]. lia.
Qed.

Lemma pretty_N_go_length_lower k : forall (x : N) s,
  (10 ^ N.of_nat k <= x)%N ->
  (String.length s + k + 1 <= String.length (pretty_N_go x s))%nat.
Proof.
  induction k as [|k IH]; intros x s Hx.
  - assert (0 < x)%N by (cbn in Hx; lia).
    rewrite pretty_N_go_step by done.
    etrans; [|apply pretty_N_go_grows]. cbn [String.length]. lia.
  - rewrite Nat2N.inj_succ, N.pow_succ_r' in Hx.
    assert (0 < 10 ^ N.of_nat k)%N by (apply N.neq_0_lt_0, N.pow_nonzero; lia).
    rewrite pretty_N_go_step by lia.
    etrans; [|apply IH]; [cbn [String.length]; lia|].
    apply N.div_le_lower_bound; lia.
Qed.

Lemma decimal_digits_lower (k : nat) i :
  10 ^ Z.of_nat k <= Z.abs i -> Z.of_nat k + 1 <= decimal_digits i.
Proof.
  intros Hi. unfold decimal_digits.
  assert (0 < 10 ^ Z.of_nat k) by (apply Z.pow_pos_nonneg; lia).
  destruct (Z.abs i) as [|p|p] eqn:Ha; [lia| |lia].
  unfold pretty, pretty_Z, pretty_positive, pretty, pretty_N.
  rewrite decide_False by done.
  pose proof (pretty_N_go_length_lower k (Npos p) "") as Hlow.
  cbn [String.length] in Hlow.
  assert (10 ^ N.of_nat k <= N.pos p)%N; [|lia].
  apply N2Z.inj_le. rewrite N2Z.inj_pow, nat_N_Z. done.
Qed.

(** A power of ten, and its opposite, has one digit more than its
    exponent. *)
Lemma digits_of_power (k : nat) :
  decimal_digits (10 ^ Z.of_nat k) = Z.of_nat k + 1 /\
  decimal_digits (- 10 ^ Z.of_nat k) = Z.of_nat k + 1.
Proof.
  assert (Hpos : 0 < 10 ^ Z.of_nat k) by (apply Z.pow_pos_nonneg; lia).
  assert (Hlt : 10 ^ Z.of_nat k < 10 ^ Z.of_nat (S k)).
  { rewrite Nat2Z.inj_succ, Z.pow_succ_r by lia. lia. }
  pose proof (decimal_digits_lower k (10 ^ Z.of_nat k)) as Hlow.
  pose proof (decimal_digits_bound (S k) (10 ^ Z.of_nat k)) as Hup.
  pose proof (decimal_digits_lower k (- 10 ^ Z.of_nat k)) as Hlow'.
  pose proof (decimal_digits_bound (S k) (- 10 ^ Z.of_nat k)) as Hup'.
  rewrite Z.abs_opp in Hlow', Hup'.
  rewrite (Z.abs_eq _ (Z.lt_le_incl _ _ Hpos)) in Hlow, Hup, Hlow', Hup'.
  specialize (Hlow (Z.le_refl _)). specialize (Hlow' (Z.le_refl _)).
  specialize (Hup (le_n_S _ _ (Nat.le_0_l k)) Hlt).
  specialize (Hup' (le_n_S _ _ (Nat.le_0_l k)) Hlt).
  rewrite Nat2Z.inj_succ in Hup, Hup'. lia.
Qed.

(** 10^4300 and its opposite have 4301 digits. *)
Lemma long_id_digits :
  decimal_digits (10 ^ 4300) = 4301 /\ decimal_digits (- 10 ^ 4300) = 4301.
Proof.
  assert (Hk : Z.of_nat 4300 = 4300) by (vm_compute; reflexivity).
  destruct (digits_of_power 4300) as [H1 H2].
  rewrite Hk in H1, H2.
  change (4300 + 1) with 4301 in H1, H2.
  exact (conj H1 H2).
Qed.

(** The id drawn for a task without one is short enough for [str]. *)
Lemma fresh_id_fits r :
  decimal_digits (fst (randint 1 1000000 r)) <= int_max_str_digits.
Proof.
  pose proof (randint_bounds 1 1000000 r ltac:(lia)) as Hb.
  etrans; [apply (decimal_digits_bound 7); [lia|]|unfold int_max_str_digits; lia].
  change (10 ^ Z.of_nat 7) with 10000000. lia.
Qed.

Lemma dispatch_math i r :
  dispatch "math" i r =
  let (s, r') := sum_randints 1000 0 r in (Ok (RInt s), r').
Proof. reflexivity. Qed.

Lemma dispatch_sort i r :
  dispatch "sort" i r =
  let (arr, r') := random_floats 5000 r in
  match sorted arr !! Nat.div (length arr) 2 with
  | Some x => (Ok (RFloat x), r')
  | None => (Raise IndexError, r')
  end.
Proof. reflexivity. Qed.

Lemma dispatch_default ty i r :
  String.eqb ty "hash" = false -> String.eqb ty "math" = false ->
  String.eqb ty "sort" = false ->
  dispatch ty i r = let (x, r') := random_random r in (Ok (RFloat x), r').
Proof. intros H1 H2 H3. unfold dispatch. by rewrite H1, H2, H3. Qed.

Lemma process_task_dict oty oid ots wid r :
  process_task (ItemDict (MkTask oty oid ots)) wid r =
  dispatch (dict_get oty "unknown"%string)
           (dict_get oid (fst (randint 1 1000000 r))) (after_fields r).
Proof.
  unfold process_task, task_fields, after_fields. cbn [d_type d_id].
  by destruct (randint 1 1000000 r).
Qed.

(** The sort branch never indexes out of range. *)
Lemma sort_branch i r :
  exists x,
    dispatch "sort" i r = (Ok (RFloat x), snd (random_floats 5000 r)) /\
    sorted (fst (random_floats 5000 r)) !! 2500%nat = Some x.
Proof.
  rewrite dispatch_sort.
  pose proof (random_floats_length 5000 r) as Hlen.
  destruct (random_floats 5000 r) as [arr r']. cbn [fst snd] in *.
  rewrite Hlen.
  change (Nat.div 5000 2) with 2500%nat.
  destruct (sorted arr !! 2500%nat) as [x|] eqn:Hx; [by exists x|].
  apply lookup_ge_None in Hx. rewrite sorted_length, Hlen in Hx. lia.
Qed.

(** The id a hash task is digested under is short enough for [str] when
    the task fits. *)
Lemma hash_id_fits oty oid ots r :
  task_fits (MkTask oty oid ots) = true ->
  dict_get oty "unknown"%string = "hash"%string ->
  decimal_digits (dict_get oid (fst (randint 1 1000000 r)))
    <= int_max_str_digits.
Proof.
  intros Hfit Hty. destruct oid as [i|]; cbn [dict_get]; [|apply fresh_id_fits].
  destruct oty as [ty|]; [|done]. cbn in Hty. subst ty.
  unfold task_fits in Hfit. cbn in Hfit. by apply Z.leb_le.
Qed.

(** A task dictionary that fits always yields a result. *)
Lemma process_task_returns d wid r :
  task_fits d = true ->
  exists res r', process_task (ItemDict d) wid r = (Ok res, r').
Proof.
  destruct d as [oty oid ots]. intros Hfit. rewrite process_task_dict.
  pose proof (hash_id_fits oty oid ots r Hfit) as Hid.
  set (ty := dict_get oty "unknown"%string) in *.
  set (i := dict_get oid _) in *. set (r1 := after_fields r).
  destruct (String.eqb ty "hash") eqn:Hh.
  { apply String.eqb_eq in Hh. rewrite Hh, dispatch_hash by auto. eauto. }
  destruct (String.eqb ty "math") eqn:Hm.
  { apply String.eqb_eq in Hm. rewrite Hm, dispatch_math.
    destruct (sum_randints 1000 0 r1). eauto. }
  destruct (String.eqb ty "sort") eqn:Hs.
  { apply String.eqb_eq in Hs. rewrite Hs.
    destruct (sort_branch i r1) as (x & -> & _). eauto. }
  rewrite dispatch_default by done.
  destruct (random_random r1). eauto.
Qed.

(** A hash task whose id is too long for [str] raises ValueError, after
    the draw for the default id. *)
Lemma process_task_long_id ty i ots wid r :
  task_fits (MkTask (Some ty) (Some i) ots) = false ->
  process_task (ItemDict (MkTask (Some ty) (Some i) ots)) wid r
    = (Raise ValueError, after_fields r).
Proof.
  unfold task_fits. cbn [d_type d_id]. intros Hfit.
  destruct (String.eqb ty "hash") eqn:Hty; [|done].
  apply String.eqb_eq in Hty as ->. apply Z.leb_gt in Hfit.
  rewrite process_task_dict. cbn [dict_get]. by apply dispatch_hash_long.
Qed.

(** What [process_task] can raise: the failed attribute lookup on an
    object that is no dictionary, or the ValueError of [str] on the id
    of a hash task; never [queue.Empty]. *)
Lemma process_task_raises task wid r e r' :
  process_task task wid r = (Raise e, r') ->
  handler e = PcDied e /\ item_fits task = false.
Proof.
  destruct task as [d|repr].
  - destruct (task_fits d) eqn:Hfit.
    + destruct (process_task_returns d wid r Hfit) as (res & r1 & ->).
      discriminate.
    + destruct d as [[ty|] [i|] ots]; try done.
      rewrite (process_task_long_id ty i ots wid r Hfit). by intros [= <- _].
  - cbn. by intros [= <- _].
Qed.

End Dispatch.

(** Test vectors of FIPS 180-4 for the digest used by the hash branch. *)
Example sha256_empty :
  Sha256.hexdigest (encode "") =
  "e3b0c44298fc1c149afbf4c8996fb92427ae41e4649b934ca495991b7852b855"%string.
Proof. vm_compute. reflexivity. Qed.

Example sha256_abc :
  Sha256.hexdigest (encode "abc") =
  "ba7816bf8f01cfea414140de5dae2223b00361a396177a9cb410ff61f20015ad"%string.
Proof. vm_compute. reflexivity. Qed.

Example sha256_two_blocks :
  Sha256.hexdigest
    (encode "abcdbcdecdefdefgefghfghighijhijkijkljklmklmnlmnomnopnopq") =
  "248d6a61d20638b8e5c026930c3e6039a33ce45964ff2167f6ecedd419db06c1"%string.
Proof. vm_compute. reflexivity. Qed.

(** C1, as the spec states it, fails: on the tape whose cell n holds n the
    sort branch generates the floats 1 * 2^-53 .. 5000 * 2^-53; their lower
    median is 2500 * 2^-53, and [process_task] returns 2501 * 2^-53. *)
Lemma sort_result_not_lower_median :
  exists x,
    lower_median (sort_array count_tape) = Some x /\
    x = 2500%N /\
    fst (process_task (task_of "sort" 7) 0 count_tape) = Ok (RFloat 2501%N) /\
    fst (process_task (task_of "sort" 7) 0 count_tape) <> Ok (RFloat x).
Proof.
  exists 2500%N.
  assert (Hr : fst (process_task (task_of "sort" 7) 0 count_tape)
               = Ok (RFloat 2501%N)) by (vm_compute; reflexivity).
  split; [vm_compute; reflexivity|].
  split; [reflexivity|].
  split; [exact Hr|].
  rewrite Hr. discriminate.
Qed.

(** C1, amended: for every task of kind sort, whatever its id, the worker
    and the random draws, the result is the element at index
    [len(arr) // 2 = 2500] of the sorted 5000-element array, which is the
    upper of the two middle positions 2499 and 2500: the elements at the
    2500 positions before it are no larger, those after it no smaller. *)
Theorem sort_result_is_upper_middle oid ots wid r :
  exists x,
    fst (process_task (ItemDict (MkTask (Some "sort"%string) oid ots)) wid r)
      = Ok (RFloat x) /\
    length (sort_array r) = 5000%nat /\
    sorted (sort_array r) ≡ₚ sort_array r /\
    Nat.div (length (sort_array r)) 2 = 2500%nat /\
    sorted (sort_array r) !! 2500%nat = Some x /\
    (forall i y, sorted (sort_array r) !! i = Some y ->
       ((i <= 2500)%nat -> (y <= x)%N) /\ ((2500 <= i)%nat -> (x <= y)%N)).
Proof.
  rewrite process_task_dict. cbn [dict_get].
  destruct (sort_branch (dict_get oid (fst (randint 1 1000000 r)))
              (after_fields r)) as (x & Hd & Hx).
  exists x. rewrite Hd. unfold sort_array.
  pose proof (random_floats_length 5000 (after_fields r)) as Hlen.
  split; [reflexivity|]. split; [exact Hlen|].
  split; [apply merge_sort_Permutation|].
  split; [rewrite Hlen; reflexivity|].
  split; [exact Hx|].
  intros i y Hy. split; intros Hi.
  - exact (sorted_ordered _ _ _ _ _ Hy Hx Hi).
  - exact (sorted_ordered _ _ _ _ _ Hx Hy Hi).
Qed.




(** C3: for every task of kind math the result is the sum of the 1000
    draws of [randint(1, 100)] made for it, each between 1 and 100, so it
    lies between 1000 and 100000 on every tape. *)
Theorem math_result_in_range oid ots wid r :
  exists xs,
    fst (process_task (ItemDict (MkTask (Some "math"%string) oid ots)) wid r)
      = Ok (RInt (sum_Z xs)) /\
    xs = randint_draws 1000 (after_fields r) /\
    length xs = 1000%nat /\
    Forall (fun x => 1 <= x <= 100) xs /\
    1000 <= sum_Z xs <= 100000.
Proof.
  exists (randint_draws 1000 (after_fields r)).
  rewrite process_task_dict. cbn [dict_get]. rewrite dispatch_math.
  pose proof (sum_randints_draws 1000 0 (after_fields r)) as Hs.
  destruct (sum_randints 1000 0 (after_fields r)) as [s r']. cbn [fst] in *.
  pose proof (randint_draws_length 1000 (after_fields r)) as Hl.
  pose proof (randint_draws_range 1000 (after_fields r)) as Hr.
  pose proof (sum_Z_bounds 1 100 _ Hr) as Hb. rewrite Hl in Hb.
  split; [rewrite Hs; reflexivity|].
  split; [reflexivity|]. split; [exact Hl|]. split; [exact Hr|].
  change (Z.of_nat 1000) with 1000 in Hb. lia.
Qed.

(** C10, as stated, fails: this task dictionary makes [process_task]
    raise ValueError, since its id has 4301 digits. *)
Lemma process_task_raises_on_long_id :
  fst (process_task
         (ItemDict (MkTask (Some "hash"%string) (Some (- 10 ^ 4300)) (Some 0%N)))
         3 count_tape) = Raise ValueError.
Proof.
  rewrite process_task_long_id; [reflexivity|].
  unfold task_fits. cbn [d_type d_id String.eqb Ascii.eqb Bool.eqb].
  rewrite (proj2 long_id_digits). reflexivity.
Qed.

(** C10, amended: on a task dictionary whose type, if present, is a
    string and whose id, if present, is an integer, [process_task]
    returns a result unless the task is a hash task with an id of more
    than 4300 digits, on which it raises ValueError; without a type the
    default branch returns the next draw of [random.random()], a float in
    [0, 1); without an id the id is the draw of [randint(1, 1000000)],
    which the hash branch then digests. *)
Theorem process_task_total :
  (forall d wid r, task_fits d = true ->
     exists res r', process_task (ItemDict d) wid r = (Ok res, r')) /\
  (forall d wid r, task_fits d = false ->
     fst (process_task (ItemDict d) wid r) = Raise ValueError /\
     d_type d = Some "hash"%string /\
     exists i, d_id d = Some i /\ int_max_str_digits < decimal_digits i) /\
  (forall oid ots wid r, exists k,
     fst (process_task (ItemDict (MkTask None oid ots)) wid r) = Ok (RFloat k) /\
     k = fst (random_random (after_fields r)) /\
     (0 <= float_value k)%Q /\ (float_value k < 1)%Q) /\
  (forall oty ots r, exists i,
     task_fields (MkTask oty None ots) r
       = (dict_get oty "unknown"%string, i, after_fields r) /\
     i = fst (randint 1 1000000 r) /\
     1 <= i <= 1000000) /\
  (forall ots wid r, exists i,
     1 <= i <= 1000000 /\
     fst (process_task (ItemDict (MkTask (Some "hash"%string) None ots)) wid r)
       = Ok (RStr (Sha256.hexdigest (encode (pretty i))))).
Proof.
  split; [|split; [|split; [|split]]].
  - intros d wid r. apply process_task_returns.
  - intros [[ty|] [i|] ots] wid r Hfit; try done.
    rewrite (process_task_long_id ty i ots wid r Hfit).
    unfold task_fits in Hfit. cbn [d_type d_id] in *.
    destruct (String.eqb ty "hash") eqn:Hty; [|done].
    apply String.eqb_eq in Hty as ->. apply Z.leb_gt in Hfit.
    split; [done|]. split; [done|]. eauto.
  - intros oid ots wid r. exists (fst (random_random (after_fields r))).
    rewrite process_task_dict. cbn [dict_get].
    rewrite dispatch_default by reflexivity.
    pose proof (random_random_bound (after_fields r)) as Hb.
    destruct (random_random (after_fields r)) as [k r']. cbn [fst] in *.
    split; [reflexivity|]. split; [reflexivity|]. by apply float_value_unit.
  - intros oty ots r. exists (fst (randint 1 1000000 r)).
    split; [|split; [reflexivity|apply randint_bounds; lia]].
    unfold task_fields, after_fields. cbn [d_type d_id dict_get].
    by destruct (randint 1 1000000 r).
  - intros ots wid r. exists (fst (randint 1 1000000 r)).
    split; [apply randint_bounds; lia|].
    rewrite process_task_dict. cbn [dict_get].
    by rewrite dispatch_hash by apply fresh_id_fits.
Qed.

(** ** The pool *)

Section Pool.

Lemma fold_spawn l : forall w,
  fold_left spawn l w =
  MkWorld (with_workers (workers (self w) ++ seq (length (threads w)) (length l))
             (self w))
          (threads w ++ map new_worker l) (rng w).
Proof.
  induction l as [|i l IH]; intros [a ths r].
  - cbn. rewrite !app_nil_r. by destruct a.
  - cbn [fold_left]. rewrite IH. unfold spawn, with_workers. cbn.
    rewrite length_app. cbn [length]. rewrite Nat.add_1_r.
    by rewrite <- !app_assoc.
Qed.

Lemma range_length n : length (range n) = Z.to_nat n.
Proof. unfold range. by rewrite length_map, length_seq. Qed.

Lemma range_lookup n k :
  (k < Z.to_nat n)%nat -> range n !! k = Some (Z.of_nat k).
Proof.
  intros Hk. unfold range. rewrite list_lookup_fmap.
  rewrite lookup_seq_lt by done. done.
Qed.

Lemma elem_of_range n i : i ∈ range n <-> 0 <= i < n.
Proof.
  unfold range. rewrite list_elem_of_fmap. split.
  - intros (k & -> & Hk). apply elem_of_seq in Hk. lia.
  - intros Hi. exists (Z.to_nat i). split; [lia|]. apply elem_of_seq. lia.
Qed.

Lemma NoDup_range n : NoDup (range n).
Proof.
  unfold range. apply NoDup_fmap_2; [|apply NoDup_seq].
  intros x y. lia.
Qed.

Lemma start_workers_eq count w :
  start_workers count w =
  MkWorld (with_workers
             (workers (self w) ++
              seq (length (threads w))
                  (Z.to_nat (Z.min count (cpu_count (self w)))))
             (self w))
          (threads w ++ map new_worker (range (Z.min count (cpu_count (self w)))))
          (rng w).
Proof. unfold start_workers. by rewrite fold_spawn, range_length. Qed.

Lemma fold_join l : forall w, fold_left (fun w' h => join h w') l w = w.
Proof. induction l as [|h l IH]; intros w; [done|]. cbn. apply IH. Qed.

Lemma stop_workers_eq w :
  stop_workers w = MkWorld (with_running false (self w)) (threads w) (rng w).
Proof. unfold stop_workers. apply fold_join. Qed.

Lemma run_app acts1 acts2 w : run (acts1 ++ acts2) w = run acts2 (run acts1 w).
Proof. unfold run. apply fold_left_app. Qed.

Lemma run_snoc acts a w : run (acts ++ [a]) w = step (run acts w) a.
Proof. by rewrite run_app. Qed.

(** No step of a worker writes [running], [workers] or [cpu_count]. *)
Lemma worker_step_self tid w :
  running (self (worker_function_step tid w)) = running (self w) /\
  workers (self (worker_function_step tid w)) = workers (self w) /\
  cpu_count (self (worker_function_step tid w)) = cpu_count (self w).
Proof.
  unfold worker_function_step. repeat case_match; done.
Qed.

Lemma step_keeps_stopped w a :
  running (self w) = false -> running (self (step w a)) = false.
Proof.
  intros Hw. destruct a as [x|count| |tid]; cbn [step].
  - done.
  - by rewrite start_workers_eq.
  - by rewrite stop_workers_eq.
  - by rewrite (proj1 (worker_step_self tid w)).
Qed.

Lemma run_keeps_stopped acts : forall w,
  running (self w) = false -> running (self (run acts w)) = false.
Proof.
  induction acts as [|a acts IH]; intros w Hw; [done|].
  apply IH. by apply step_keeps_stopped.
Qed.

Lemma run_puts ts : forall w,
  run (map APut ts) w =
  MkWorld (with_queue (event_queue (self w) ++ ts) (self w)) (threads w) (rng w).
Proof.
  induction ts as [|t ts IH]; intros [a ths r].
  - cbn. rewrite app_nil_r. by destruct a.
  - cbn [map]. change (run (APut t :: map APut ts) ?w)
      with (run (map APut ts) (put t w)).
    rewrite IH. unfold put, queue_put, with_queue. cbn.
    by rewrite <- app_assoc.
Qed.

Lemma take_n_all q :
  take_n (length q) q = (map Ok q, []).
Proof.
  induction q as [|x q IH]; [done|].
  cbn [length take_n queue_get]. by rewrite IH.
Qed.

End Pool.

(** C4, as the spec states it, fails for a negative count: the loop runs
    over an empty range and no worker is spawned, while the minimum of the
    count and the processor count is negative. *)
Lemma start_workers_negative_count :
  threads (start_workers (-1) pool4) = [] /\
  workers (self (start_workers (-1) pool4)) = [] /\
  Z.min (-1) (cpu_count (self pool4)) = -1 /\
  Z.of_nat (length (threads (start_workers (-1) pool4)))
    <> Z.min (-1) (cpu_count (self pool4)).
Proof. vm_compute. repeat split; congruence. Qed.

(** C4, amended: [start_workers count] spawns exactly
    m = max(0, min(count, cpu_count)) workers (none when the count is
    negative); the new threads carry the identities 0 .. m-1 in order,
    pairwise distinct, each starts at the head of the loop, and one handle
    per new thread is appended to [workers]; nothing else changes. *)
Theorem start_workers_spawns count w :
  let m := Z.max 0 (Z.min count (cpu_count (self w))) in
  let w' := start_workers count w in
  threads w' = threads w ++ map new_worker (range m) /\
  length (threads w') = (length (threads w) + Z.to_nat m)%nat /\
  map th_wid (map new_worker (range m)) = range m /\
  NoDup (range m) /\
  (forall i, i ∈ range m <-> 0 <= i < m) /\
  workers (self w') = workers (self w) ++ seq (length (threads w)) (Z.to_nat m) /\
  (forall k, (k < Z.to_nat m)%nat ->
     threads w' !! (length (threads w) + k)%nat = Some (new_worker (Z.of_nat k))) /\
  running (self w') = running (self w) /\
  metrics (self w') = metrics (self w) /\
  event_queue (self w') = event_queue (self w) /\
  cpu_count (self w') = cpu_count (self w).
Proof.
  intros m w'. subst w'. rewrite start_workers_eq. cbn [threads self].
  assert (Hr : range (Z.min count (cpu_count (self w))) = range m).
  { unfold range. f_equal. f_equal. lia. }
  assert (Hm : Z.to_nat (Z.min count (cpu_count (self w))) = Z.to_nat m) by lia.
  rewrite Hr, Hm.
  split; [done|]. split; [by rewrite length_app, length_map, range_length|].
  split; [rewrite <- list_fmap_compose; apply list_fmap_id|].
  split; [apply NoDup_range|]. split; [apply elem_of_range|].
  split; [done|]. split; [|done].
  intros k Hk. rewrite lookup_app_r by lia.
  replace (length (threads w) + k - length (threads w))%nat with k by lia.
  rewrite list_lookup_fmap, range_lookup by done. done.
Qed.

(** C6: tasks put in the order t1 .. tn on a fresh pool, with no worker
    taking from the queue, come back from n successive [get] calls as
    t1 .. tn, each once, and the queue is then empty (the next [get]
    raises [queue.Empty]). *)
Theorem queue_is_fifo hw r ts :
  let q := event_queue (self (run (map APut ts) (init hw r))) in
  take_n (length ts) q = (map Ok ts, []) /\
  fst (queue_get (snd (take_n (length ts) q))) = Raise QueueEmpty.
Proof.
  intros q. subst q. rewrite run_puts. cbn [self init init_analyzer with_queue event_queue app].
  rewrite take_n_all. done.
Qed.

(** C8: [running] is true at construction, false after [stop_workers],
    and stays false in every state reached from there by puts, starts,
    stops and worker steps. *)
Theorem running_is_one_way hw r :
  running (self (init hw r)) = true /\
  (forall w, running (self (stop_workers w)) = false) /\
  (forall acts1 acts2,
     running (self (run (acts1 ++ AStop :: acts2) (init hw r))) = false).
Proof.
  split; [done|]. split.
  - intros w. by rewrite stop_workers_eq.
  - intros acts1 acts2. rewrite run_app.
    change (run (AStop :: acts2) ?w) with (run acts2 (stop_workers w)).
    apply run_keeps_stopped. by rewrite stop_workers_eq.
Qed.

(** ** Workers *)

Section Workers.

Ltac account :=
  unfold accounted, in_flight, dead_workers;
  cbn [self threads rng metrics event_queue workers running cpu_count
       with_queue with_metrics with_workers with_running].

Lemma count_threads_app f l1 l2 :
  count_threads f (l1 ++ l2) = (count_threads f l1 + count_threads f l2)%nat.
Proof. unfold count_threads. by rewrite List.filter_app, length_app. Qed.

Lemma count_threads_insert f l : forall tid th th',
  l !! tid = Some th ->
  (count_threads f (<[tid := th']> l) + Nat.b2n (f th))%nat =
  (count_threads f l + Nat.b2n (f th'))%nat.
Proof.
  unfold count_threads.
  induction l as [|x l IH]; intros tid th th' Hl; [done|].
  destruct tid as [|tid]; cbn in Hl.
  - injection Hl as ->.
    change (<[0%nat:=th']> (th :: l)) with (th' :: l). cbn [List.filter].
    destruct (f th), (f th'); cbn; lia.
  - specialize (IH _ _ th' Hl).
    change (<[S tid:=th']> (x :: l)) with (x :: <[tid:=th']> l).
    cbn [List.filter]. destruct (f x); cbn [length]; lia.
Qed.

Lemma count_new_workers f l :
  f (new_worker 0) = false -> (forall i, f (new_worker i) = f (new_worker 0)) ->
  count_threads f (map new_worker l) = 0%nat.
Proof.
  intros H0 Hi. unfold count_threads.
  induction l as [|i l IH]; [done|]. cbn. by rewrite Hi, H0.
Qed.

Lemma total_results_append key res (m : gmap string (list result)) :
  total_results (metrics_append key res m) = S (total_results m).
Proof.
  unfold total_results, metrics_append.
  destruct (m !! key) as [rs|] eqn:Hk; cbn [dict_get].
  - rewrite <- (insert_delete_id m key rs Hk) at 2.
    rewrite <- (insert_delete_eq m).
    rewrite !map_fold_insert_L; try (by rewrite lookup_delete_eq); try (intros; lia).
    rewrite length_app. cbn. lia.
  - rewrite map_fold_insert_L; [done| intros; lia | done].
Qed.

(** Every put adds one to the account; nothing else changes it. *)
Lemma step_accounted w a :
  accounted (step w a) = (accounted w + Nat.b2n (is_put a))%nat.
Proof.
  destruct a as [x|count| |tid]; cbn [step is_put Nat.b2n].
  - unfold put, queue_put. account. rewrite length_app. cbn [length]. lia.
  - rewrite start_workers_eq. account.
    rewrite !count_threads_app, !count_new_workers by done. lia.
  - rewrite stop_workers_eq. account. lia.
  - unfold worker_function_step.
    destruct (threads w !! tid) as [th|] eqn:Hth; [|lia].
    pose proof (fun p => count_threads_insert holds_task _ _ _ (set_pc p th) Hth) as Hh.
    pose proof (fun p => count_threads_insert is_dead _ _ _ (set_pc p th) Hth) as Hd.
    unfold holds_task, is_dead in Hh, Hd; cbn [set_pc th_pc] in Hh, Hd.
    fold holds_task in Hh. fold is_dead in Hd.
    destruct (th_pc th) as [| |task|res| |e] eqn:Hpc.
    + destruct (running (self w));
        [specialize (Hh PcGet); specialize (Hd PcGet)
        |specialize (Hh PcExited); specialize (Hd PcExited)];
        account; cbn [Nat.b2n] in *; lia.
    + destruct (event_queue (self w)) as [|x q] eqn:Hq; cbn [queue_get handler].
      * specialize (Hh PcCheck); specialize (Hd PcCheck).
        account. rewrite Hq. cbn [Nat.b2n length] in *. lia.
      * specialize (Hh (PcProcess x)); specialize (Hd (PcProcess x)).
        account. rewrite Hq. cbn [Nat.b2n length] in *. lia.
    + destruct (process_task task (th_wid th) (rng w)) as [[res|e] r'] eqn:Hp.
      * specialize (Hh (PcAppend res)); specialize (Hd (PcAppend res)).
        account. cbn [Nat.b2n] in *. lia.
      * apply process_task_raises in Hp as [-> _].
        specialize (Hh (PcDied e)); specialize (Hd (PcDied e)).
        account. cbn [Nat.b2n] in *. lia.
    + specialize (Hh PcCheck); specialize (Hd PcCheck).
      account. rewrite total_results_append. cbn [Nat.b2n] in *. lia.
    + lia.
    + lia.
Qed.

Lemma run_accounted acts : forall w,
  accounted (run acts w) = (accounted w + enqueued acts)%nat.
Proof.
  induction acts as [|a acts IH]; intros w.
  - cbn. unfold enqueued. cbn. lia.
  - change (run (a :: acts) w) with (run acts (step w a)).
    rewrite IH, step_accounted. unfold enqueued. cbn [List.filter].
    destruct (is_put a); cbn; lia.
Qed.

End Workers.


(** ** The worker loop *)

Section Loop.

(** A worker step rewrites at most the stepping thread's position, and
    the metrics only under that thread's own key. *)
Lemma worker_step_shape tid w :
  worker_function_step tid w = w \/
  exists th p a r,
    threads w !! tid = Some th /\
    worker_function_step tid w =
      MkWorld a (<[tid := set_pc p th]> (threads w)) r /\
    workers a = workers (self w) /\
    (metrics a = metrics (self w) \/
     exists res, metrics a =
       metrics_append (worker_key (th_wid th)) res (metrics (self w))).
Proof.
  unfold worker_function_step.
  destruct (threads w !! tid) as [th|] eqn:Hth; [|by left].
  destruct (th_pc th) as [| |task|res| |e]; try (by left); right; exists th.
  - destruct (running (self w)); eauto 10.
  - destruct (queue_get (event_queue (self w))) as [[x|e] q]; eauto 10.
  - destruct (process_task task (th_wid th) (rng w)) as [[res|e] r']; eauto 10.
  - eauto 12.
Qed.

Lemma final_thread_step w a tid th :
  threads w !! tid = Some th -> is_final (th_pc th) = true ->
  threads (step w a) !! tid = Some th.
Proof.
  intros Hth Hfin. destruct a as [x|count| |tid']; cbn [step].
  - done.
  - rewrite start_workers_eq. cbn [threads].
    rewrite lookup_app_l; [done|]. by eapply lookup_lt_Some.
  - by rewrite stop_workers_eq.
  - destruct (decide (tid' = tid)) as [->|Hne].
    + unfold worker_function_step. rewrite Hth.
      by destruct (th_pc th).
    + destruct (worker_step_shape tid' w) as [->|(th' & p & a & r & _ & -> & _)];
        [done|].
      cbn [threads]. by rewrite list_lookup_insert_ne.
Qed.

Lemma final_thread_run acts : forall w tid th,
  threads w !! tid = Some th -> is_final (th_pc th) = true ->
  threads (run acts w) !! tid = Some th.
Proof.
  induction acts as [|a acts IH]; intros w tid th Hth Hfin; [done|].
  change (run (a :: acts) w) with (run acts (step w a)).
  apply IH; [|done]. by apply final_thread_step.
Qed.

(** The identity given at [start_workers] stays with the thread. *)
Lemma step_keeps_wid w a tid th :
  threads w !! tid = Some th ->
  exists th', threads (step w a) !! tid = Some th' /\ th_wid th' = th_wid th.
Proof.
  intros Hth. destruct a as [x|count| |tid']; cbn [step].
  - eauto.
  - rewrite start_workers_eq. cbn [threads].
    rewrite lookup_app_l; [eauto|]. by eapply lookup_lt_Some.
  - rewrite stop_workers_eq. eauto.
  - destruct (worker_step_shape tid' w) as [->|(th0 & p & a & r & H0 & -> & _)];
      [eauto|].
    cbn [threads]. destruct (decide (tid' = tid)) as [->|Hne].
    + rewrite list_lookup_insert_eq by (by eapply lookup_lt_Some).
      exists (set_pc p th0). split; [done|]. cbn. congruence.
    + rewrite list_lookup_insert_ne by done. eauto.
Qed.

Lemma run_keeps_wid acts : forall w tid th,
  threads w !! tid = Some th ->
  exists th', threads (run acts w) !! tid = Some th' /\ th_wid th' = th_wid th.
Proof.
  induction acts as [|a acts IH]; intros w tid th Hth; [eauto|].
  change (run (a :: acts) w) with (run acts (step w a)).
  destruct (step_keeps_wid w a tid th Hth) as (th1 & H1 & E1).
  destruct (IH _ _ _ H1) as (th2 & H2 & E2).
  exists th2. split; [done|congruence].
Qed.

End Loop.

(** C5: when [get] times out on the empty queue the exception is caught
    and the worker is back at the head of its loop, nothing else changed;
    when [process_task] raises, the exception is not [queue.Empty], the
    handler does not match it, the worker ends in it for good, and no
    field of the pool (running, workers, metrics, queue) and no other
    thread changes. *)
Theorem worker_catches_only_empty w tid th :
  threads w !! tid = Some th ->
  (th_pc th = PcGet -> event_queue (self w) = [] ->
     worker_function_step tid w =
       MkWorld (self w) (<[tid := set_pc PcCheck th]> (threads w)) (rng w) /\
     (running (self w) = true ->
      threads (worker_function_step tid (worker_function_step tid w)) !! tid
        = Some (set_pc PcGet th))) /\
  (forall task e r',
     th_pc th = PcProcess task ->
     process_task task (th_wid th) (rng w) = (Raise e, r') ->
     e <> QueueEmpty /\
     handler e = PcDied e /\
     threads (worker_function_step tid w)
       = <[tid := set_pc (PcDied e) th]> (threads w) /\
     self (worker_function_step tid w) = self w /\
     (forall acts,
        threads (run acts (worker_function_step tid w)) !! tid
          = Some (set_pc (PcDied e) th))) /\
  (forall e, e <> QueueEmpty -> handler e = PcDied e).
Proof.
  intros Hth. pose proof (lookup_lt_Some _ _ _ Hth) as Hlt.
  split; [|split; [|by intros []]].
  - intros Hpc Hq.
    assert (Hs : worker_function_step tid w =
       MkWorld (self w) (<[tid := set_pc PcCheck th]> (threads w)) (rng w)).
    { unfold worker_function_step. rewrite Hth, Hpc, Hq. cbn.
      f_equal. rewrite <- Hq. by destruct (self w). }
    split; [done|]. intros Hrun. rewrite Hs.
    unfold worker_function_step at 1. cbn [threads self rng].
    rewrite list_lookup_insert_eq by done. cbn [set_pc th_pc th_wid th_daemon].
    rewrite Hrun. cbn [threads].
    rewrite list_insert_insert_eq.
    by rewrite list_lookup_insert_eq.
  - intros task e r' Hpc Hp.
    pose proof (process_task_raises _ _ _ _ _ Hp) as [He _].
    assert (Hs : worker_function_step tid w =
       MkWorld (self w) (<[tid := set_pc (PcDied e) th]> (threads w)) r').
    { unfold worker_function_step. by rewrite Hth, Hpc, Hp, He. }
    split; [by destruct e|]. split; [done|]. rewrite Hs.
    split; [done|]. split; [done|].
    intros acts. apply final_thread_run; [|done].
    cbn [threads]. by rewrite list_lookup_insert_eq.
Qed.

Lemma worker_catches_only_empty_witness :
  threads (worker_function_step 0 world_idle) !! 0%nat
    = Some (MkThread 0 true PcCheck) /\
  threads (worker_function_step 1 world_failing) !! 1%nat
    = Some (MkThread 1 true (PcDied AttributeError)) /\
  self (worker_function_step 1 world_failing) = self world_failing.
Proof.
  destruct (worker_catches_only_empty world_idle 0 (MkThread 0 true PcGet) eq_refl)
    as (Ha & _ & _).
  destruct (Ha eq_refl eq_refl) as [Hidle _].
  destruct (worker_catches_only_empty world_failing 1
              (MkThread 1 true (PcProcess (ItemOther "None"))) eq_refl)
    as (_ & Hb & _).
  destruct (Hb (ItemOther "None") AttributeError (rng world_failing)
               eq_refl eq_refl) as (_ & _ & Hths & Hself & _).
  split; [rewrite Hidle; reflexivity|].
  split; [rewrite Hths; reflexivity|exact Hself].
Defined.

(** ** The keys of metrics *)

Section Keys.

Lemma worker_key_inj i j : worker_key i = worker_key j -> i = j.
Proof.
  unfold worker_key. cbn. intros H. injection H as H.
  by apply (inj pretty).
Qed.

Lemma step_ids w a : ids_in_range w -> ids_in_range (step w a).
Proof.
  intros Hw. destruct a as [x|count| |tid']; cbn [step].
  - done.
  - rewrite start_workers_eq. intros tid th. cbn [threads self with_workers workers].
    rewrite length_app, length_seq, lookup_app_Some.
    intros [Hold|[_ Hnew]].
    + specialize (Hw _ _ Hold). lia.
    + rewrite list_lookup_fmap in Hnew.
      destruct (range _ !! _) as [i|] eqn:Hi; [|done].
      injection Hnew as <-. cbn [new_worker th_wid].
      apply list_elem_of_lookup_2, elem_of_range in Hi. lia.
  - by rewrite stop_workers_eq.
  - destruct (worker_step_shape tid' w)
      as [->|(th0 & p & a & r & H0 & -> & Hws & _)]; [done|].
    intros tid th. cbn [threads self]. rewrite Hws.
    rewrite list_lookup_insert_Some.
    intros [(Heq & Hth & _)|[_ Hold]]; [|by apply (Hw tid)].
    subst tid th. cbn [set_pc th_wid]. by apply (Hw tid').
Qed.

Lemma step_keys w a : keys_owned w -> keys_owned (step w a).
Proof.
  intros Hw k Hk.
  assert (Hold : is_Some (metrics (self w) !! k) ->
    exists tid th, threads (step w a) !! tid = Some th /\
                   k = worker_key (th_wid th)).
  { intros Hm. destruct (Hw k Hm) as (tid & th & Hth & ->).
    destruct (step_keeps_wid w a tid th Hth) as (th' & Hth' & <-). eauto. }
  destruct a as [x|count| |tid']; cbn [step] in *.
  - by apply Hold.
  - rewrite start_workers_eq in Hk. by apply Hold.
  - rewrite stop_workers_eq in Hk. by apply Hold.
  - destruct (worker_step_shape tid' w)
      as [Hs|(th0 & p & a & r & H0 & Hs & _ & [Hm|(res & Hm)])];
      rewrite Hs in Hk |- *; cbn [self threads] in *.
    + rewrite <- Hs. by apply Hold.
    + rewrite Hm in Hk. rewrite Hs in Hold. by apply Hold.
    + rewrite Hm in Hk. unfold metrics_append in Hk.
      destruct (decide (worker_key (th_wid th0) = k)) as [<-|Hne].
      * exists tid', (set_pc p th0). split; [|done].
        apply list_lookup_insert_eq. by eapply lookup_lt_Some.
      * rewrite lookup_insert_ne in Hk by done.
        rewrite Hs in Hold. by apply Hold.
Qed.

Lemma run_ids_keys acts : forall w,
  ids_in_range w -> keys_owned w ->
  ids_in_range (run acts w) /\ keys_owned (run acts w).
Proof.
  induction acts as [|a acts IH]; intros w Hi Hk; [done|].
  change (run (a :: acts) w) with (run acts (step w a)).
  apply IH; [by apply step_ids | by apply step_keys].
Qed.

Lemma init_ids_keys hw r : ids_in_range (init hw r) /\ keys_owned (init hw r).
Proof.
  split.
  - intros tid th H. done.
  - intros k [rs H]. cbn in H. by rewrite lookup_empty in H.
Qed.

End Keys.

(** ** calculate_fibonacci and prime_sieve *)

Section Analysis.

Lemma range_snoc n : 0 <= n -> range (n + 1) = range n ++ [n].
Proof.
  intros Hn. unfold range.
  replace (Z.to_nat (n + 1)) with (S (Z.to_nat n)) by lia.
  rewrite seq_S, map_app. cbn. f_equal. f_equal. lia.
Qed.

Lemma range_nonpos n : n <= 0 -> range n = [].
Proof. intros Hn. unfold range. by replace (Z.to_nat n) with 0%nat by lia. Qed.

Lemma fib_loop_succ n :
  0 <= n ->
  fold_left fib_step (range (n + 1)) (0, 1) =
  fib_step (fold_left fib_step (range n) (0, 1)) n.
Proof. intros Hn. by rewrite range_snoc, fold_left_app. Qed.

Lemma py_index_in i len :
  0 <= i < Z.of_nat len -> py_index i len = Some (Z.to_nat i).
Proof.
  intros Hi. unfold py_index.
  destruct (Z.leb_spec 0 i); [|lia]. destruct (Z.ltb_spec i (Z.of_nat len)); [done|lia].
Qed.

Lemma py_index_out i len : Z.of_nat len <= i -> 0 <= i -> py_index i len = None.
Proof.
  intros Hi H0. unfold py_index.
  destruct (Z.leb_spec 0 i); [|lia]. destruct (Z.ltb_spec i (Z.of_nat len)); [lia|done].
Qed.

Lemma list_repeat_fits {A} (x : A) n :
  - ssize_max - 1 <= n <= ssize_max ->
  list_repeat x n = inr (replicate (Z.to_nat n) x).
Proof.
  intros Hn. unfold list_repeat.
  destruct (Z.ltb_spec n (- ssize_max - 1)); [lia|].
  by destruct (Z.ltb_spec ssize_max n); [lia|].
Qed.

Lemma list_repeat_overflow {A} (x : A) n :
  n < - ssize_max - 1 \/ ssize_max < n ->
  list_repeat x n = inl PyOverflowError.
Proof.
  intros Hn. unfold list_repeat.
  destruct (Z.ltb_spec n (- ssize_max - 1)); [done|].
  by destruct (Z.ltb_spec ssize_max n); [|lia].
Qed.

Lemma assign_at_length {A} ps : forall (vals l : list A),
  length (assign_at ps vals l) = length l.
Proof.
  induction ps as [|p ps IH]; intros [|v vals] l; cbn; try done.
  by rewrite IH, length_insert.
Qed.

Lemma assign_at_other {A} ps : forall (vals l : list A) k,
  k ∉ ps -> assign_at ps vals l !! k = l !! k.
Proof.
  induction ps as [|p ps IH]; intros [|v vals] l k Hk; cbn; try done.
  apply not_elem_of_cons in Hk as [Hne Hk].
  rewrite IH by done. by rewrite list_lookup_insert_ne.
Qed.

Lemma assign_at_struck ps : forall n (l : list bool) k,
  k ∈ ps -> (k < length l)%nat -> (length ps <= n)%nat ->
  assign_at ps (replicate n false) l !! k = Some false.
Proof.
  induction ps as [|p ps IH]; intros n l k Hk Hlt Hn; [by apply elem_of_nil in Hk|].
  destruct n as [|n]; [cbn in Hn; lia|]. cbn [replicate assign_at].
  destruct (decide (k ∈ ps)) as [Hin|Hnot].
  - apply IH; [done| by rewrite length_insert | cbn in Hn; lia].
  - apply elem_of_cons in Hk as [->|Hk]; [|done].
    rewrite assign_at_other by done. by apply list_lookup_insert_eq.
Qed.

(** The positions struck for [i]: the multiples of [i] from [i * i] up
    to the limit, as many as the right-hand side of the assignment has
    elements. *)
Lemma slice_positions_multiples limit i :
  2 <= i -> i * i <= limit ->
  length (slice_positions (i * i) (limit + 1) i (Z.to_nat (limit + 1)))
    = Z.to_nat ((limit - i * i) / i + 1) /\
  forall k, k ∈ slice_positions (i * i) (limit + 1) i (Z.to_nat (limit + 1)) <->
    (i * i <= Z.of_nat k <= limit /\ (i | Z.of_nat k)).
Proof.
  intros Hi Hsq. unfold slice_positions, clamp_bound.
  assert (Hlim : 0 <= limit) by nia.
  rewrite Z2Nat.id by lia.
  destruct (Z.ltb_spec (i * i) 0); [nia|].
  destruct (Z.ltb_spec (limit + 1) 0); [lia|].
  rewrite Z.min_l by lia. rewrite Z.min_l by lia.
  destruct (Z.ltb_spec (i * i) (limit + 1)); [|lia].
  replace (limit + 1 - i * i - 1) with (limit - i * i) by lia.
  pose proof (Z.div_pos (limit - i * i) i ltac:(lia) ltac:(lia)) as Hq.
  pose proof (Z.mul_div_le (limit - i * i) i ltac:(lia)) as Hle.
  split; [by rewrite length_map, length_seq|].
  intros k. rewrite list_elem_of_fmap. split.
  - intros (t & -> & Ht). apply elem_of_seq in Ht.
    assert (Z.of_nat t <= (limit - i * i) / i) by lia.
    rewrite Z2Nat.id by nia. split; [nia|].
    exists (i + Z.of_nat t). lia.
  - intros [[Hlo Hhi] [q Hq']].
    exists (Z.to_nat (q - i)). assert (i <= q) by nia.
    split; [rewrite Z2Nat.id by lia; nia|].
    apply elem_of_seq.
    assert (q - i <= (limit - i * i) / i).
    { apply Z.div_le_lower_bound; [lia|]. nia. }
    lia.
Qed.

Lemma sieved_start limit s0 s1 :
  1 <= limit ->
  set_item 0 false (replicate (Z.to_nat (limit + 1)) true) = inr s0 ->
  set_item 1 false s0 = inr s1 ->
  sieved limit 2 s1.
Proof.
  intros Hl. unfold set_item.
  rewrite length_replicate, py_index_in by lia. intros [= <-].
  rewrite length_insert, length_replicate, py_index_in by lia. intros [= <-].
  split; [by rewrite !length_insert, length_replicate|].
  intros k b Hk.
  change (Z.to_nat 1) with 1%nat in Hk. change (Z.to_nat 0) with 0%nat in Hk.
  destruct (decide (k = 1%nat)) as [->|H1].
  { rewrite list_lookup_insert_eq in Hk
      by (rewrite length_insert, length_replicate; lia).
    injection Hk as <-. split; [lia|done]. }
  rewrite list_lookup_insert_ne in Hk by done.
  destruct (decide (k = 0%nat)) as [->|H0].
  { rewrite list_lookup_insert_eq in Hk by (rewrite length_replicate; lia).
    injection Hk as <-. split; [lia|done]. }
  rewrite list_lookup_insert_ne in Hk by done.
  apply lookup_replicate in Hk as [-> _].
  split; [done|]. intros [?|(d & ? & _)]; lia.
Qed.

Lemma sieve_step_ok limit j s :
  limit < ssize_max ->
  2 <= j -> j * j <= limit -> sieved limit j s ->
  exists s', sieve_step limit j s = inr s' /\ sieved limit (j + 1) s'.
Proof.
  intros Hmax Hj Hsq [Hlen Hs].
  assert (Hjl : 0 <= j < Z.of_nat (length s)) by (rewrite Hlen; nia).
  unfold sieve_step, get_item. rewrite py_index_in by done.
  destruct (s !! Z.to_nat j) as [b|] eqn:Hb;
    [|apply lookup_ge_None in Hb; lia].
  cbn [and_then].
  destruct (slice_positions_multiples limit j Hj Hsq) as [Hcount Hpos].
  destruct b.
  - rewrite list_repeat_fits.
    2:{ pose proof (Z.div_pos (limit - j * j) j ltac:(lia) ltac:(lia)).
        assert ((limit - j * j) / j <= limit - j * j)
          by (apply Z.div_le_upper_bound; nia).
        unfold ssize_max in *. nia. }
    cbn [and_then].
    unfold set_slice. rewrite Hlen, Hcount, length_replicate, Nat.eqb_refl.
    eexists. split; [done|].
    split; [by rewrite assign_at_length|].
    intros k b' Hk.
    destruct (decide (k ∈ slice_positions (j * j) (limit + 1) j
                           (Z.to_nat (limit + 1)))) as [Hin|Hout].
    + rewrite assign_at_struck in Hk; [| done | | rewrite Hcount; lia].
      * injection Hk as <-. apply Hpos in Hin as [[Hlo _] Hdiv].
        split; [|done]. intros _. right. exists j. split; [lia|done].
      * apply Hpos in Hin. lia.
    + rewrite assign_at_other in Hk by done.
      rewrite (Hs k b' Hk). split.
      * intros [?|(d & Hd & Hdiv & Hdd)]; [by left|].
        right. exists d. split; [lia|done].
      * intros [?|(d & Hd & Hdiv & Hdd)]; [by left|].
        destruct (decide (d = j)) as [->|Hne].
        -- exfalso. apply Hout, Hpos. split; [|done].
           apply lookup_lt_Some in Hk. lia.
        -- right. exists d. split; [lia|done].
  - exists s. split; [done|]. split; [done|].
    intros k b' Hk. rewrite (Hs k b' Hk).
    destruct (proj1 (Hs _ _ Hb) eq_refl) as [Hlt|(e & He & Hediv & Hee)];
      [lia|].
    rewrite Z2Nat.id in Hediv, Hee by lia.
    split.
    + intros [?|(d & Hd & Hdiv & Hdd)]; [by left|].
      right. exists d. split; [lia|done].
    + intros [?|(d & Hd & Hdiv & Hdd)]; [by left|].
      right. destruct (decide (d = j)) as [->|Hne].
      * exists e. split; [lia|]. split; [by etrans|nia].
      * exists d. split; [lia|done].
Qed.

Lemma sieve_loop_ok limit a n : forall st s,
  limit < ssize_max ->
  2 <= a + Z.of_nat st ->
  (forall m, (st <= m < st + n)%nat ->
     (a + Z.of_nat m) * (a + Z.of_nat m) <= limit) ->
  sieved limit (a + Z.of_nat st) s ->
  exists s',
    sieve_loop limit (map (fun k => a + Z.of_nat k) (seq st n)) s = inr s' /\
    sieved limit (a + Z.of_nat (st + n)) s'.
Proof.
  induction n as [|n IH]; intros st s Hmax Ha Hsq Hs.
  - exists s. split; [done|]. by rewrite Nat.add_0_r.
  - cbn [seq map sieve_loop].
    destruct (sieve_step_ok limit (a + Z.of_nat st) s Hmax Ha)
      as (s1 & -> & Hs1); [apply Hsq; lia | done |].
    cbn [and_then].
    replace (a + Z.of_nat st + 1) with (a + Z.of_nat (S st)) in Hs1 by lia.
    destruct (IH (S st) s1) as (s2 & -> & Hs2); [done | lia | | done |].
    + intros m Hm. apply Hsq. lia.
    + exists s2. split; [done|].
      by replace (st + S n)%nat with (S st + n)%nat by lia.
Qed.

Lemma elem_of_marked_from s : forall i x,
  x ∈ marked_from i s <-> exists k, s !! k = Some true /\ x = i + Z.of_nat k.
Proof.
  induction s as [|b s IH]; intros i x; cbn [marked_from].
  - split; [by intros ?%elem_of_nil | by intros (k & ? & _)].
  - assert (Htl : x ∈ marked_from (i + 1) s <->
              exists k, (b :: s) !! S k = Some true /\ x = i + Z.of_nat (S k)).
    { rewrite IH. split; intros (k & Hk & ->); exists k; (split; [done|lia]). }
    destruct b.
    + rewrite elem_of_cons, Htl. split.
      * intros [->|(k & Hk & ->)]; [exists 0%nat; split; [done|lia] | eauto].
      * intros ([|k] & Hk & ->); [left; lia | right; eauto].
    + rewrite Htl. split.
      * intros (k & Hk & ->); eauto.
      * intros ([|k] & Hk & ->); [done | eauto].
Qed.

Lemma marked_from_increasing s : forall i, StronglySorted Z.lt (marked_from i s).
Proof.
  induction s as [|b s IH]; intros i; cbn [marked_from]; [constructor|].
  destruct b; [|apply IH].
  constructor; [apply IH|].
  apply Forall_forall. intros x Hx.
  apply elem_of_marked_from in Hx as (k & _ & ->). lia.
Qed.

(** What survives the sieve run up to the square root is prime. *)
Lemma unstruck_iff_prime limit k :
  0 <= k <= limit ->
  ~ (k < 2 \/ exists d, 2 <= d < Z.sqrt limit + 1 /\ (d | k) /\ d * d <= k)
  <-> is_prime k.
Proof.
  intros Hk.
  assert (Hroot : forall d, 0 <= d -> d * d <= k -> d < Z.sqrt limit + 1).
  { intros d Hd Hdd.
    assert (d <= Z.sqrt limit); [|lia].
    apply Z.sqrt_le_square; lia. }
  split.
  - intros Hno. split; [lia|].
    intros d Hd [q Hq]. apply Hno. right.
    assert (2 <= q) by nia.
    destruct (Z_le_gt_dec (d * d) k) as [Hle|Hgt].
    + exists d. split; [split; [lia|apply Hroot; lia]|]. split; [by exists q|done].
    + exists q. assert (q * q <= k) by nia.
      split; [split; [lia|apply Hroot; lia]|]. split; [|done].
      exists d. lia.
  - intros [H2 Hp] [Hlt|(d & Hd & Hdiv & Hdd)]; [lia|].
    apply (Hp d); [nia|done].
Qed.

End Analysis.

(** X1: [calculate_fibonacci] computes the Fibonacci numbers: 0 for every
    n <= 0 (the loop does not run), 1 for n = 1, and from there each value
    is the sum of the two before it. *)
Theorem calculate_fibonacci_recurrence :
  (forall n, n <= 0 -> calculate_fibonacci n = 0) /\
  calculate_fibonacci 1 = 1 /\
  (forall n, 0 <= n ->
     calculate_fibonacci (n + 2)
     = calculate_fibonacci (n + 1) + calculate_fibonacci n).
Proof.
  split; [|split; [done|]].
  - intros n Hn. unfold calculate_fibonacci. by rewrite range_nonpos.
  - intros n Hn. unfold calculate_fibonacci.
    replace (n + 2) with (n + 1 + 1) by lia.
    rewrite (fib_loop_succ (n + 1)) by lia.
    rewrite (fib_loop_succ n) by lia.
    destruct (fold_left fib_step (range n) (0, 1)) as [a b]. cbn. lia.
Qed.

(** The sieve is correct from limit 1 on. *)
Lemma prime_sieve_correct limit :
  1 <= limit < sieve_bound ->
  exists ps,
    prime_sieve limit = inr ps /\
    (forall p, p ∈ ps <-> is_prime p /\ p <= limit) /\
    StronglySorted Z.lt ps.
Proof.
  intros [Hl Hhi]. unfold prime_sieve.
  assert (Hmax : limit < ssize_max) by (unfold sieve_bound, ssize_max in *; lia).
  rewrite list_repeat_fits by (unfold ssize_max in *; lia). cbn [and_then].
  destruct (set_item 0 false (replicate (Z.to_nat (limit + 1)) true))
    as [e|s0] eqn:H0.
  { unfold set_item in H0.
    rewrite length_replicate, py_index_in in H0 by lia. done. }
  cbn [and_then].
  destruct (set_item 1 false s0) as [e|s1] eqn:H1.
  { unfold set_item in H0, H1.
    rewrite length_replicate, py_index_in in H0 by lia. injection H0 as <-.
    rewrite length_insert, length_replicate, py_index_in in H1 by lia. done. }
  cbn [and_then].
  pose proof (sieved_start limit s0 s1 Hl H0 H1) as Hs1.
  pose proof (Z.sqrt_nonneg limit) as Hr0.
  destruct (sieve_loop_ok limit 2 (Z.to_nat (Z.sqrt limit + 1 - 2)) 0 s1)
    as (s2 & Hloop & [Hlen Hs2]); [done | lia | | done |].
  { intros m Hm.
    assert (2 + Z.of_nat m <= Z.sqrt limit) by lia.
    apply Z.sqrt_le_square; lia. }
  unfold range_from. rewrite Hloop. cbn [and_then].
  eexists. split; [done|]. split; [|apply marked_from_increasing].
  intros p. rewrite elem_of_marked_from.
  assert (Hend : 2 + Z.of_nat (0 + Z.to_nat (Z.sqrt limit + 1 - 2))
                 = Z.sqrt limit + 1 \/ Z.sqrt limit < 1) by lia.
  assert (Hsqrt1 : 1 <= Z.sqrt limit).
  { apply Z.sqrt_le_square; lia. }
  destruct Hend as [Hend|]; [|lia]. rewrite Hend in Hs2.
  split.
  - intros (k & Hk & ->). rewrite Z.add_0_l.
    pose proof (lookup_lt_Some _ _ _ Hk) as Hklt.
    split; [|lia].
    apply (unstruck_iff_prime limit); [lia|].
    intros HX. by apply (Hs2 k true Hk) in HX.
  - intros [Hp Hple]. destruct Hp as [Hp2 Hp].
    exists (Z.to_nat p). split; [|lia].
    destruct (s2 !! Z.to_nat p) as [b|] eqn:Hb;
      [|apply lookup_ge_None in Hb; lia].
    destruct b; [done|].
    pose proof (proj1 (Hs2 _ _ Hb) eq_refl) as HX.
    rewrite Z2Nat.id in HX by lia.
    exfalso. revert HX. apply (unstruck_iff_prime limit); [lia|done].
Qed.


(** X2: for every limit from 1 up to 2^52 - 1 [prime_sieve] raises
    nothing and returns exactly the primes up to the limit, in increasing
    order (so without repetition). *)
Theorem prime_sieve_lists_primes limit :
  1 <= limit < sieve_bound ->
  exists ps,
    prime_sieve limit = inr ps /\
    (forall p, p ∈ ps <-> is_prime p /\ p <= limit) /\
    StronglySorted Z.lt ps.
Proof. apply prime_sieve_correct. Qed.

Lemma prime_sieve_lists_primes_witness :
  exists ps,
    prime_sieve 30 = inr ps /\
    (forall p, p ∈ ps <-> is_prime p /\ p <= 30) /\
    StronglySorted Z.lt ps.
Proof. apply (prime_sieve_lists_primes 30). unfold sieve_bound. lia. Defined.

(** X3: [prime_sieve] returns no list for a limit below 1: it raises
    IndexError, the sieve having no position 1 (for a negative limit no
    position 0) to clear, as long as limit + 1 fits the index type, and
    OverflowError from the list repetition when limit + 1 is below
    -2^63; from 2^63 - 1 on the repetition overflows as well. *)
Theorem prime_sieve_small_limit limit :
  limit <= 0 \/ ssize_max <= limit ->
  prime_sieve limit =
  inl (if (limit + 1 <? - ssize_max - 1) || (ssize_max <? limit + 1)
       then PyOverflowError else PyIndexError).
Proof.
  intros Hl. unfold prime_sieve, list_repeat.
  destruct ((limit + 1 <? - ssize_max - 1) || (ssize_max <? limit + 1)) eqn:Hov;
    [done|].
  apply orb_false_elim in Hov as [H1 H2].
  apply Z.ltb_ge in H1, H2. destruct Hl as [Hl|Hl]; [|lia].
  cbn [and_then]. unfold set_item. rewrite length_replicate.
  destruct (decide (limit = 0)) as [->|Hne].
  - cbn. done.
  - replace (Z.to_nat (limit + 1)) with 0%nat by lia. done.
Qed.

Lemma prime_sieve_small_limit_witness :
  prime_sieve 0 = inl PyIndexError /\
  prime_sieve (- 2 ^ 70) = inl PyOverflowError /\
  prime_sieve ssize_max = inl PyOverflowError.
Proof.
  split; [|split].
  - apply (prime_sieve_small_limit 0). lia.
  - apply (prime_sieve_small_limit (- 2 ^ 70)). lia.
  - apply (prime_sieve_small_limit ssize_max). lia.
Defined.

(** ** generate_hash_chain and simulate_memory_operations *)

Section Chains.

Lemma be_bytes_range n x : Forall (fun b => 0 <= b < 256) (Sha256.be_bytes n x).
Proof.
  induction n as [|n IH]; cbn [Sha256.be_bytes]; constructor; [|done].
  change 0xFF with (Z.ones 8). rewrite Z.land_ones by lia.
  apply Z.mod_pos_bound. lia.
Qed.

Lemma digest_length msg : length (Sha256.digest msg) = 32%nat.
Proof.
  unfold Sha256.digest, Sha256.digest_words.
  generalize (fold_left Sha256.compress
    (Sha256.blocks (length (Sha256.words_of_bytes (length (Sha256.pad msg))
                              (Sha256.pad msg)))
       (Sha256.words_of_bytes (length (Sha256.pad msg)) (Sha256.pad msg)))
    Sha256.initial_chain).
  intros c. reflexivity.
Qed.

Lemma digest_range msg : Forall (fun b => 0 <= b < 256) (Sha256.digest msg).
Proof.
  unfold Sha256.digest. generalize (Sha256.digest_words msg).
  intros ws. induction ws as [|w ws IH]; cbn [flat_map]; [constructor|].
  apply Forall_app. split; [apply be_bytes_range|done].
Qed.

Lemma hex_digit_hex d : 0 <= d < 16 -> is_hex_char (Sha256.hex_digit d) = true.
Proof.
  intros Hd.
  assert (d = 0 \/ d = 1 \/ d = 2 \/ d = 3 \/ d = 4 \/ d = 5 \/ d = 6 \/ d = 7 \/
          d = 8 \/ d = 9 \/ d = 10 \/ d = 11 \/ d = 12 \/ d = 13 \/ d = 14 \/
          d = 15) as Hc by lia.
  repeat (destruct Hc as [->|Hc]; [reflexivity|]). by subst d.
Qed.

Lemma hex_of_bytes_length bs :
  String.length (Sha256.hex_of_bytes bs) = (2 * length bs)%nat.
Proof.
  induction bs as [|b bs IH]; [done|].
  cbn [Sha256.hex_of_bytes String.length length]. rewrite IH. lia.
Qed.

Lemma hex_of_bytes_hex bs :
  Forall (fun b => 0 <= b < 256) bs ->
  is_hex_string (Sha256.hex_of_bytes bs) = true.
Proof.
  unfold is_hex_string.
  induction 1 as [|b bs Hb _ IH]; [done|].
  cbn [Sha256.hex_of_bytes list_ascii_of_string forallb].
  rewrite IH, !hex_digit_hex; [done| |].
  - change 0xF with (Z.ones 4). rewrite Z.land_ones by lia.
    apply Z.mod_pos_bound. lia.
  - rewrite Z.shiftr_div_pow2 by lia. change (2 ^ 4) with 16.
    split; [apply Z.div_pos; lia | apply Z.div_lt_upper_bound; lia].
Qed.

Lemma substring_prefix_length n : forall s,
  String.length (substring 0 n s) = Nat.min n (String.length s).
Proof.
  induction n as [|n IH]; intros [|c s]; cbn; try done. by rewrite IH.
Qed.

Lemma substring_prefix_hex n : forall s,
  is_hex_string s = true -> is_hex_string (substring 0 n s) = true.
Proof.
  unfold is_hex_string.
  induction n as [|n IH]; intros [|c s]; cbn; try done.
  intros [Hc Hs]%andb_prop. by rewrite Hc, IH.
Qed.

Lemma chain_entry_format seed :
  String.length (substring 0 16 (Sha256.hex_of_bytes (Sha256.digest seed)))
    = 16%nat /\
  is_hex_string (substring 0 16 (Sha256.hex_of_bytes (Sha256.digest seed)))
    = true.
Proof.
  split.
  - rewrite substring_prefix_length, hex_of_bytes_length, digest_length.
    reflexivity.
  - apply substring_prefix_hex, hex_of_bytes_hex, digest_range.
Qed.

Lemma hash_chain_loop_format n : forall seed,
  length (hash_chain_loop n seed) = n /\
  Forall (fun e => String.length e = 16%nat /\ is_hex_string e = true)
         (hash_chain_loop n seed).
Proof.
  induction n as [|n IH]; intros seed; cbn [hash_chain_loop]; [by split|].
  destruct (IH (Sha256.digest seed)) as [Hl Hf].
  split; [cbn [length]; by rewrite Hl|]. constructor; [apply chain_entry_format|done].
Qed.

Lemma hash_chain_loop_lookup n : forall seed i,
  (i < n)%nat ->
  hash_chain_loop n seed !! i =
  Some (substring 0 16
          (Sha256.hex_of_bytes (Nat.iter (S i) Sha256.digest seed))).
Proof.
  induction n as [|n IH]; intros seed i Hi; [lia|].
  cbn [hash_chain_loop]. destruct i as [|i]; [done|].
  cbn [lookup list_lookup]. rewrite IH by lia.
  by rewrite <- !Nat.iter_succ_r.
Qed.

Lemma hash_chain_loop_prefix n : forall m seed,
  (n <= m)%nat -> hash_chain_loop n seed `prefix_of` hash_chain_loop m seed.
Proof.
  induction n as [|n IH]; intros m seed Hm; cbn [hash_chain_loop].
  - apply prefix_nil.
  - destruct m as [|m]; [lia|]. cbn [hash_chain_loop].
    apply prefix_cons, IH. lia.
Qed.

(** Decimal numerals hold no underscore. *)
Lemma pretty_N_go_no_underscore x : forall s,
  occurs "_" s = false -> occurs "_" (pretty_N_go x s) = false.
Proof.
  induction (N.lt_wf_0 x) as [x _ IH]; intros s Hs.
  assert (x = 0 \/ 0 < x)%N as [->|Hx] by lia.
  - by rewrite pretty_N_go_0.
  - rewrite pretty_N_go_step by done. apply IH; [by apply N.div_lt|].
    cbn [occurs]. rewrite Hs. unfold pretty_N_char. by repeat case_match.
Qed.

Lemma pretty_Z_no_underscore (i : Z) : occurs "_" (pretty i) = false.
Proof.
  assert (HN : forall x : N, occurs "_" (pretty x) = false).
  { intros x. unfold pretty, pretty_N. case_decide; [done|].
    by apply pretty_N_go_no_underscore. }
  destruct i as [|p|p]; [done | apply (HN (Npos p)) |].
  unfold pretty, pretty_Z. cbn [String.append occurs].
  apply (HN (Npos p)).
Qed.

Lemma split_at_underscore s1 : forall s2 t1 t2,
  occurs "_" s1 = false -> occurs "_" s2 = false ->
  (s1 +:+ "_" +:+ t1 = s2 +:+ "_" +:+ t2)%string -> s1 = s2.
Proof.
  induction s1 as [|c s1 IH]; intros [|c2 s2] t1 t2 H1 H2 Heq;
    cbn [occurs String.append] in *.
  - done.
  - injection Heq as <- _. by rewrite Ascii.eqb_refl in H2.
  - injection Heq as -> _. by rewrite Ascii.eqb_refl in H1.
  - injection Heq as -> Heq.
    apply orb_false_elim in H1 as [_ H1]. apply orb_false_elim in H2 as [_ H2].
    f_equal. by eapply IH.
Qed.

(** The key determines the loop index. *)
Lemma memory_key_index i x i' x' :
  memory_key i x = memory_key i' x' -> i = i'.
Proof.
  unfold memory_key. cbn. intros H. injection H as H.
  apply (inj pretty).
  eapply split_at_underscore; [apply pretty_Z_no_underscore..|done].
Qed.

Lemma memory_loop_size todo : forall (m : gmap string (list Z)) r,
  NoDup todo ->
  (forall k, is_Some (m !! k) -> exists i x, k = memory_key i x /\ i ∉ todo) ->
  size (fst (fold_left memory_step todo (m, r))) = (size m + length todo)%nat.
Proof.
  induction todo as [|i todo IH]; intros m r Hnd Hm; [cbn; lia|].
  apply NoDup_cons in Hnd as [Hi Hnd].
  cbn [fold_left]. unfold memory_step at 2. cbn [fst snd].
  destruct (randint 1 1000 r) as [x r1].
  destruct (randint 64 256 r1) as [n r2].
  destruct (random_bytes (Z.to_nat n) r2) as [value r3].
  rewrite IH; [|done|].
  - rewrite map_size_insert_None; [cbn [length]; lia|].
    destruct (m !! memory_key i x) as [v|] eqn:Hk; [|done].
    destruct (Hm _ (mk_is_Some _ _ Hk)) as (i' & x' & Heq & Hni).
    apply memory_key_index in Heq as <-.
    exfalso. apply Hni. by left.
  - intros k Hk. destruct (decide (memory_key i x = k)) as [<-|Hne].
    + eauto.
    + rewrite lookup_insert_ne in Hk by done.
      destruct (Hm k Hk) as (i' & x' & -> & Hni).
      exists i', x'. split; [done|]. intros Hin. apply Hni. by right.
Qed.

End Chains.

(** X4: [generate_hash_chain] makes one draw whatever the length asked,
    returns max(0, length) entries (none for a length <= 0), and every
    entry is a string of exactly 16 lowercase hexadecimal digits. *)
Theorem hash_chain_format float_str len r :
  length (fst (generate_hash_chain float_str len r)) = Z.to_nat len /\
  Forall (fun e => String.length e = 16%nat /\ is_hex_string e = true)
         (fst (generate_hash_chain float_str len r)) /\
  snd (generate_hash_chain float_str len r) = snd (random_random r).
Proof.
  unfold generate_hash_chain. destruct (random_random r) as [x r'].
  cbn [fst snd].
  destruct (hash_chain_loop_format (Z.to_nat len) (encode (float_str x))).
  done.
Qed.

(** X5: entry i of the chain is the first 16 hex digits of the digest
    applied i + 1 times to the seed string, so from the same generator
    state a shorter chain is a prefix of a longer one. *)
Theorem hash_chain_entries float_str r :
  (forall len i, (i < Z.to_nat len)%nat ->
     fst (generate_hash_chain float_str len r) !! i =
     Some (substring 0 16
             (Sha256.hex_of_bytes
                (Nat.iter (S i) Sha256.digest
                   (encode (float_str (fst (random_random r)))))))) /\
  (forall len len', len <= len' ->
     fst (generate_hash_chain float_str len r)
       `prefix_of` fst (generate_hash_chain float_str len' r)).
Proof.
  unfold generate_hash_chain. destruct (random_random r) as [x r'].
  cbn [fst]. split.
  - intros len i Hi. by apply hash_chain_loop_lookup.
  - intros len len' Hle. apply hash_chain_loop_prefix. lia.
Qed.

(** No turn of the loop overwrites an earlier key. *)
Lemma memory_map_size r :
  fst (simulate_memory_operations r) = 5000.
Proof.
  unfold simulate_memory_operations.
  pose proof (memory_loop_size (range 5000) ∅ r (NoDup_range 5000)) as Hsz.
  destruct (fold_left memory_step (range 5000) (∅, r)) as [m r'].
  cbn [fst] in *. rewrite Hsz.
  - rewrite map_size_empty, range_length. lia.
  - intros k [v Hk]. by rewrite lookup_empty in Hk.
Qed.

(** X6: [simulate_memory_operations] returns 5000 on every outcome of
    its draws: the keys of the 5000 turns are pairwise different, since a
    key determines its loop index, so no turn overwrites an earlier one. *)
Theorem simulate_memory_operations_count r :
  fst (simulate_memory_operations r) = 5000.
Proof. apply memory_map_size. Qed.

(** X7: for every task of kind hash whose id, if it has one, is of at
    most 4300 digits, the result is a string of exactly 64 lowercase
    hexadecimal digits. *)
Theorem hash_result_is_hex_digest oid ots wid r :
  (forall i, oid = Some i -> decimal_digits i <= int_max_str_digits) ->
  exists s,
    fst (process_task (ItemDict (MkTask (Some "hash"%string) oid ots)) wid r)
      = Ok (RStr s) /\
    String.length s = 64%nat /\
    is_hex_string s = true.
Proof.
  intros Hid. rewrite process_task_dict. cbn [dict_get].
  rewrite dispatch_hash.
  2:{ destruct oid as [i|]; cbn [dict_get]; [by apply Hid|apply fresh_id_fits]. }
  eexists. split; [done|]. unfold Sha256.hexdigest. split.
  - by rewrite hex_of_bytes_length, digest_length.
  - apply hex_of_bytes_hex, digest_range.
Qed.

Lemma hash_result_is_hex_digest_witness :
  exists s,
    fst (process_task (ItemDict (MkTask (Some "hash"%string) (Some 42) None))
           0 count_tape) = Ok (RStr s) /\
    String.length s = 64%nat /\
    is_hex_string s = true.
Proof.
  apply (hash_result_is_hex_digest (Some 42) None 0 count_tape).
  intros i [= <-].
  assert (decimal_digits 42 = 2) as -> by (vm_compute; reflexivity).
  unfold int_max_str_digits. lia.
Defined.

(** ** More on the pool *)

Section PoolExtras.

Lemma recorded_append key res k w a r ths :
  metrics a = metrics_append key res (metrics (self w)) ->
  recorded k (MkWorld a ths r) =
  if decide (key = k) then recorded k w ++ [res] else recorded k w.
Proof.
  intros Hm. unfold recorded. cbn [self]. rewrite Hm. unfold metrics_append.
  case_decide as Hk.
  - subst k. by rewrite lookup_insert_eq.
  - by rewrite lookup_insert_ne.
Qed.

Lemma step_recorded w a k : recorded k w `prefix_of` recorded k (step w a).
Proof.
  destruct a as [x|count| |tid]; cbn [step].
  - done.
  - by rewrite start_workers_eq.
  - by rewrite stop_workers_eq.
  - destruct (worker_step_shape tid w)
      as [->|(th & p & a & r & _ & -> & _ & [Hm|(res & Hm)])]; [done| |].
    + unfold recorded. cbn [self]. by rewrite Hm.
    + rewrite (recorded_append _ _ _ _ _ _ _ Hm).
      case_decide; [by apply prefix_app_r|done].
Qed.

Lemma other_action_keeps_thread w a tid th :
  is_step_of tid a = false -> threads w !! tid = Some th ->
  threads (step w a) !! tid = Some th.
Proof.
  intros Ha Hth. destruct a as [x|count| |tid']; cbn [step].
  - done.
  - rewrite start_workers_eq. cbn [threads].
    rewrite lookup_app_l; [done|]. by eapply lookup_lt_Some.
  - by rewrite stop_workers_eq.
  - cbn in Ha. apply Nat.eqb_neq in Ha.
    destruct (worker_step_shape tid' w) as [->|(th' & p & a & r & _ & -> & _)];
      [done|].
    cbn [threads]. by rewrite list_lookup_insert_ne.
Qed.

(** With [running] false every own step brings a worker closer to the
    end of its loop. *)
Lemma stopped_step_progress w tid th :
  running (self w) = false -> threads w !! tid = Some th ->
  exists th',
    threads (worker_function_step tid w) !! tid = Some th' /\
    th_wid th' = th_wid th /\
    (steps_left (th_pc th') <= steps_left (th_pc th) - 1)%nat.
Proof.
  intros Hrun Hth. pose proof (lookup_lt_Some _ _ _ Hth) as Hlt.
  unfold worker_function_step. rewrite Hth, Hrun.
  destruct (th_pc th) as [| |task|res| |e] eqn:Hpc.
  - cbn [threads]. rewrite list_lookup_insert_eq by done.
    eexists. split; [done|]. cbn. split; [done|lia].
  - destruct (queue_get (event_queue (self w))) as [[x|e] q] eqn:Hq;
      cbn [threads]; rewrite list_lookup_insert_eq by done;
      (eexists; split; [done|]; split; [done|]).
    + cbn. lia.
    + destruct e; cbn; lia.
  - destruct (process_task task (th_wid th) (rng w)) as [[res|e] r'];
      cbn [threads]; rewrite list_lookup_insert_eq by done;
      (eexists; split; [done|]; split; [done|]).
    + cbn. lia.
    + destruct e; cbn; lia.
  - cbn [threads]. rewrite list_lookup_insert_eq by done.
    eexists. split; [done|]. cbn. split; [done|lia].
  - exists th. rewrite Hpc. cbn. split; [done|]. split; [done|lia].
  - exists th. rewrite Hpc. cbn. split; [done|]. split; [done|lia].
Qed.

Lemma stopped_run_progress tid acts : forall w th,
  running (self w) = false -> threads w !! tid = Some th ->
  (steps_left (th_pc th) <= own_steps tid acts)%nat ->
  exists th',
    threads (run acts w) !! tid = Some th' /\
    th_wid th' = th_wid th /\
    is_final (th_pc th') = true.
Proof.
  induction acts as [|a acts IH]; intros w th Hrun Hth Hn.
  - exists th. split; [done|]. split; [done|].
    unfold own_steps in Hn. cbn in Hn. by destruct (th_pc th); cbn in *; try lia.
  - change (run (a :: acts) w) with (run acts (step w a)).
    pose proof (step_keeps_stopped w a Hrun) as Hrun'.
    unfold own_steps in Hn. cbn [List.filter] in Hn.
    destruct (is_step_of tid a) eqn:Ha.
    + destruct a as [x|count| |tid']; cbn in Ha; try done.
      apply Nat.eqb_eq in Ha as ->. cbn [step] in *.
      destruct (stopped_step_progress w tid th Hrun Hth) as (th1 & H1 & Hw1 & Hs1).
      destruct (IH _ th1 Hrun' H1) as (th2 & H2 & Hw2 & Hf2).
      { cbn [length] in Hn. unfold own_steps. lia. }
      exists th2. split; [done|]. split; [congruence|done].
    + apply (IH _ th Hrun'); [|done].
      by apply other_action_keeps_thread.
Qed.

Lemma step_taken w a :
  taken w a ++ event_queue (self (step w a)) =
  event_queue (self w) ++ put_items [a].
Proof.
  destruct a as [x|count| |tid]; cbn [taken put_items flat_map step].
  - unfold put, queue_put. cbn. by rewrite ?app_nil_r.
  - rewrite start_workers_eq. cbn. by rewrite ?app_nil_r.
  - rewrite stop_workers_eq. cbn. by rewrite ?app_nil_r.
  - rewrite ?app_nil_r.
    destruct (threads w !! tid) as [th|] eqn:Hth.
    2:{ unfold worker_function_step. by rewrite Hth. }
    pose proof (lookup_lt_Some _ _ _ Hth) as Hlt.
    unfold worker_function_step. rewrite Hth.
    destruct (th_pc th) as [| |task|res| |e] eqn:Hpc.
    + destruct (running (self w)); cbn [threads self];
        by rewrite list_lookup_insert_eq.
    + destruct (event_queue (self w)) as [|x q] eqn:Hq; cbn [queue_get handler];
        cbn [threads self]; rewrite list_lookup_insert_eq by done; cbn;
        by rewrite ?Hq.
    + destruct (process_task task (th_wid th) (rng w)) as [[res|e] r'];
        cbn [threads self]; by rewrite list_lookup_insert_eq.
    + cbn [threads self]. by rewrite list_lookup_insert_eq.
    + by rewrite Hth.
    + by rewrite Hth.
Qed.

Lemma put_items_cons a acts : put_items (a :: acts) = put_items [a] ++ put_items acts.
Proof. unfold put_items. cbn [flat_map]. by rewrite app_nil_r. Qed.

Lemma count_clean_dead ths :
  Forall (fun th => pc_clean (th_pc th) = true) ths ->
  count_threads is_dead ths = 0%nat.
Proof.
  unfold count_threads. induction 1 as [|th ths Hth _ IH]; [done|].
  cbn [List.filter]. unfold is_dead at 1.
  destruct (th_pc th); cbn in Hth |- *; try done.
Qed.

Lemma step_clean w a :
  only_fitting [a] = true -> clean w -> clean (step w a).
Proof.
  intros Ha [Hq Hths]. destruct a as [x|count| |tid]; cbn [step].
  - split; [|done]. unfold put, queue_put. cbn [self event_queue with_queue].
    apply Forall_app. split; [done|]. constructor; [|done].
    cbn in Ha. by rewrite andb_true_r in Ha.
  - rewrite start_workers_eq. split; [done|]. cbn [threads].
    apply Forall_app. split; [done|]. by apply Forall_fmap, Forall_true.
  - by rewrite stop_workers_eq.
  - unfold worker_function_step.
    destruct (threads w !! tid) as [th|] eqn:Hth; [|done].
    pose proof (Forall_lookup_1 _ _ _ _ Hths Hth) as Hth_clean. cbn in Hth_clean.
    destruct (th_pc th) as [| |task|res| |e] eqn:Hpc.
    + destruct (running (self w)); (split; [done|]); cbn [threads];
        by apply Forall_insert.
    + destruct (event_queue (self w)) as [|x q] eqn:Hq'; cbn [queue_get handler].
      * split; [by cbn|]. cbn [threads]. by apply Forall_insert.
      * apply Forall_cons in Hq as [Hx Hq].
        split; [done|]. cbn [threads]. by apply Forall_insert.
    + destruct task as [d|repr]; [|done].
      destruct (process_task_returns d (th_wid th) (rng w) Hth_clean)
      as (res & r' & ->).
      split; [done|]. cbn [threads]. by apply Forall_insert.
    + split; [done|]. cbn [threads]. by apply Forall_insert.
    + done.
    + done.
Qed.

Lemma run_clean acts : forall w,
  only_fitting acts = true -> clean w -> clean (run acts w).
Proof.
  induction acts as [|a acts IH]; intros w Ha Hw; [done|].
  change (run (a :: acts) w) with (run acts (step w a)).
  cbn [only_fitting forallb] in Ha. apply andb_prop in Ha as [Ha Hacts].
  apply IH; [done|]. apply step_clean; [|done].
  cbn. by rewrite Ha.
Qed.

End PoolExtras.

(** X8: [metrics] is append-only: along every schedule, the results
    recorded under a key in a later state extend those of an earlier
    state; nothing is ever removed, reordered or rewritten. *)
Theorem metrics_are_append_only acts w k :
  recorded k w `prefix_of` recorded k (run acts w).
Proof.
  revert w. induction acts as [|a acts IH]; intros w; [done|].
  change (run (a :: acts) w) with (run acts (step w a)).
  etrans; [apply step_recorded|apply IH].
Qed.

(** X9: a step of a worker leaves every key of [metrics] other than its
    own [worker_<id>] untouched, and under its own key it records at most
    one more result. *)
Theorem worker_writes_own_key_only w tid th :
  threads w !! tid = Some th ->
  (forall k, k <> worker_key (th_wid th) ->
     metrics (self (worker_function_step tid w)) !! k = metrics (self w) !! k) /\
  (recorded (worker_key (th_wid th)) (worker_function_step tid w)
     = recorded (worker_key (th_wid th)) w \/
   exists res,
     recorded (worker_key (th_wid th)) (worker_function_step tid w)
     = recorded (worker_key (th_wid th)) w ++ [res]).
Proof.
  intros Hth.
  destruct (worker_step_shape tid w)
    as [->|(th0 & p & a & r & H0 & -> & _ & [Hm|(res & Hm)])].
  - split; [done|by left].
  - split; [intros k _; cbn [self]; by rewrite Hm|].
    left. unfold recorded. cbn [self]. by rewrite Hm.
  - assert (th0 = th) as -> by congruence. split.
    + intros k Hk. cbn [self]. rewrite Hm. unfold metrics_append.
      by rewrite lookup_insert_ne.
    + right. exists res. rewrite (recorded_append _ _ _ _ _ _ _ Hm).
      by rewrite decide_True.
Qed.

Lemma worker_writes_own_key_only_witness :
  (forall k, k <> worker_key 0 ->
     metrics (self (worker_function_step 0 world_appending)) !! k
     = metrics (self world_appending) !! k) /\
  (recorded (worker_key 0) (worker_function_step 0 world_appending)
     = recorded (worker_key 0) world_appending \/
   exists res,
     recorded (worker_key 0) (worker_function_step 0 world_appending)
     = recorded (worker_key 0) world_appending ++ [res]).
Proof.
  apply (worker_writes_own_key_only world_appending 0
           (MkThread 0 true
              (PcAppend (RStr (Sha256.hexdigest (encode "42")))))).
  vm_compute. reflexivity.
Defined.

(** X10: as long as the only items put are task dictionaries with a
    string type and an integer id (either may be absent) that are no hash
    tasks with an id of more than 4300 digits, no worker ever dies, and
    every task put is recorded as a result, held by a worker or still
    queued. *)
Theorem dict_tasks_kill_no_worker hw r acts :
  only_fitting acts = true ->
  dead_workers (run acts (init hw r)) = 0%nat /\
  (total_results (metrics (self (run acts (init hw r))))
   + in_flight (run acts (init hw r))
   + length (event_queue (self (run acts (init hw r)))) = enqueued acts)%nat.
Proof.
  intros Ha.
  assert (Hc : clean (run acts (init hw r))).
  { apply run_clean; [done|]. split; constructor. }
  assert (Hd : dead_workers (run acts (init hw r)) = 0%nat).
  { unfold dead_workers. apply count_clean_dead, Hc. }
  split; [done|].
  pose proof (run_accounted acts (init hw r)) as Hacc.
  unfold accounted in Hacc at 1. rewrite Hd in Hacc. rewrite Nat.add_0_r in Hacc.
  rewrite Hacc. unfold accounted, in_flight, dead_workers. cbn.
  unfold total_results. rewrite map_fold_empty. lia.
Qed.

Lemma dict_tasks_kill_no_worker_witness :
  dead_workers (run schedule_dicts pool4) = 0%nat /\
  (total_results (metrics (self (run schedule_dicts pool4)))
   + in_flight (run schedule_dicts pool4)
   + length (event_queue (self (run schedule_dicts pool4)))
   = enqueued schedule_dicts)%nat.
Proof.
  apply (dict_tasks_kill_no_worker (Some 4) count_tape schedule_dicts).
  reflexivity.
Defined.

(** X11: once [running] is false, a worker is out of its loop after at
    most four of its own steps, whatever else is scheduled in between: it
    finishes the task it holds or is about to get, then sees the flag. *)
Theorem stopped_worker_ends_within_four_steps w tid th acts :
  running (self w) = false ->
  threads w !! tid = Some th ->
  (4 <= own_steps tid acts)%nat ->
  exists th',
    threads (run acts w) !! tid = Some th' /\
    th_wid th' = th_wid th /\
    is_final (th_pc th') = true.
Proof.
  intros Hrun Hth Hn. apply (stopped_run_progress tid acts w th); try done.
  destruct (th_pc th); cbn; lia.
Qed.

Lemma stopped_worker_ends_within_four_steps_witness :
  exists th',
    threads (run [AStep 0; APut (task_of "math" 7); AStep 0; AStep 0; AStep 0]
               world_stopped) !! 0%nat = Some th' /\
    th_wid th' = 0 /\
    is_final (th_pc th') = true.
Proof.
  apply (stopped_worker_ends_within_four_steps world_stopped 0
           (MkThread 0 true PcGet)
           [AStep 0; APut (task_of "math" 7); AStep 0; AStep 0; AStep 0]).
  - reflexivity.
  - reflexivity.
  - vm_compute. lia.
Defined.

(** Three steps may not be enough: the worker of [world_stopped] still
    takes the queued task and records its result. *)
Example three_steps_after_stop :
  threads (run [AStep 0; AStep 0; AStep 0] world_stopped) !! 0%nat
    = Some (MkThread 0 true PcCheck) /\
  total_results (metrics (self (run [AStep 0; AStep 0; AStep 0] world_stopped)))
    = 1%nat.
Proof. vm_compute. done. Qed.

(** X12: one turn of the loop, run without interruption: a worker at
    the head of its loop, with [running] true, a task at the head of the
    queue and [process_task] returning a result, is back at the head of
    its loop after four steps; the task is gone from the queue, the
    result is appended under the worker's key, and nothing else changed
    but the generator state [process_task] left. *)
Theorem worker_turn w tid th x q res r' :
  threads w !! tid = Some th ->
  th_pc th = PcCheck ->
  running (self w) = true ->
  event_queue (self w) = x :: q ->
  process_task x (th_wid th) (rng w) = (Ok res, r') ->
  run [AStep tid; AStep tid; AStep tid; AStep tid] w =
  MkWorld
    (with_metrics
       (metrics_append (worker_key (th_wid th)) res (metrics (self w)))
       (with_queue q (self w)))
    (threads w) r'.
Proof.
  intros Hth Hpc Hrun Hq Hp.
  pose proof (lookup_lt_Some _ _ _ Hth) as Hlt.
  assert (H1 : worker_function_step tid w =
    MkWorld (self w) (<[tid := set_pc PcGet th]> (threads w)) (rng w)).
  { unfold worker_function_step. by rewrite Hth, Hpc, Hrun. }
  assert (H2 : worker_function_step tid
      (MkWorld (self w) (<[tid := set_pc PcGet th]> (threads w)) (rng w)) =
    MkWorld (with_queue q (self w))
            (<[tid := set_pc (PcProcess x) th]> (threads w)) (rng w)).
  { unfold worker_function_step. cbn [threads self rng].
    rewrite list_lookup_insert_eq by done. cbn [set_pc th_pc].
    rewrite Hq. cbn [queue_get]. by rewrite list_insert_insert_eq. }
  assert (H3 : worker_function_step tid
      (MkWorld (with_queue q (self w))
               (<[tid := set_pc (PcProcess x) th]> (threads w)) (rng w)) =
    MkWorld (with_queue q (self w))
            (<[tid := set_pc (PcAppend res) th]> (threads w)) r').
  { unfold worker_function_step. cbn [threads self rng].
    rewrite list_lookup_insert_eq by done. cbn [set_pc th_pc th_wid].
    rewrite Hp. by rewrite list_insert_insert_eq. }
  assert (H4 : worker_function_step tid
      (MkWorld (with_queue q (self w))
               (<[tid := set_pc (PcAppend res) th]> (threads w)) r') =
    MkWorld
      (with_metrics
         (metrics_append (worker_key (th_wid th)) res (metrics (self w)))
         (with_queue q (self w)))
      (<[tid := set_pc PcCheck th]> (threads w)) r').
  { unfold worker_function_step. cbn [threads self rng].
    rewrite list_lookup_insert_eq by done. cbn [set_pc th_pc th_wid].
    by rewrite list_insert_insert_eq. }
  unfold run. cbn [fold_left step]. rewrite H1, H2, H3, H4.
  f_equal. apply list_insert_id. rewrite Hth. f_equal.
  destruct th as [i d p]. cbn in Hpc. by subst p.
Qed.

Lemma worker_turn_witness :
  run [AStep 0; AStep 0; AStep 0; AStep 0] world_ready =
  MkWorld
    (with_metrics
       (metrics_append (worker_key 0) (RStr (Sha256.hexdigest (encode "42")))
          (metrics (self world_ready)))
       (with_queue [] (self world_ready)))
    (threads world_ready) (MkRng N.of_nat 1).
Proof.
  apply (worker_turn world_ready 0 (MkThread 0 true PcCheck)
           (task_of "hash" 42) []
           (RStr (Sha256.hexdigest (encode "42"))) (MkRng N.of_nat 1));
    reflexivity.
Defined.

(** X13: along every schedule, with any number of workers, the tasks
    delivered to workers so far followed by the tasks still queued are
    the tasks initially queued followed by the tasks put, in that order:
    every task is delivered at most once, to one worker, and in the order
    of submission. *)
Theorem tasks_delivered_once_in_order acts w :
  delivered acts w ++ event_queue (self (run acts w)) =
  event_queue (self w) ++ put_items acts.
Proof.
  revert w. induction acts as [|a acts IH]; intros w.
  - cbn. by rewrite app_nil_r.
  - change (run (a :: acts) w) with (run acts (step w a)).
    cbn [delivered]. rewrite put_items_cons.
    rewrite <- app_assoc, IH, !app_assoc. f_equal. apply step_taken.
Qed.

(** X14: [start_workers] numbers its threads from 0 on every call: after
    two calls the identities are those of the first call followed by those
    of the second, so as soon as both calls spawn a worker two threads
    share identity 0 and with it the key [worker_0]. *)
Theorem start_twice_repeats_identities c1 c2 w :
  map th_wid (threads (start_workers c2 (start_workers c1 w))) =
    map th_wid (threads w)
    ++ range (Z.min c1 (cpu_count (self w)))
    ++ range (Z.min c2 (cpu_count (self w))) /\
  (1 <= Z.min c1 (cpu_count (self w)) ->
   1 <= Z.min c2 (cpu_count (self w)) ->
   ~ NoDup (map th_wid (threads (start_workers c2 (start_workers c1 w))))).
Proof.
  assert (Hids : forall n, map th_wid (map new_worker (range n)) = range n).
  { intros n. rewrite <- list_fmap_compose. apply list_fmap_id. }
  assert (Heq : map th_wid (threads (start_workers c2 (start_workers c1 w))) =
    map th_wid (threads w)
    ++ range (Z.min c1 (cpu_count (self w)))
    ++ range (Z.min c2 (cpu_count (self w)))).
  { rewrite (start_workers_eq c2), (start_workers_eq c1).
    cbn [threads self with_workers cpu_count].
    by rewrite !map_app, !Hids, <- app_assoc. }
  split; [done|]. intros H1 H2. rewrite Heq. intros Hnd.
  apply NoDup_app in Hnd as (_ & _ & Hnd).
  apply NoDup_app in Hnd as (_ & Hdisj & _).
  apply (Hdisj 0); apply elem_of_range; lia.
Qed.

(** X15: on a fresh pool, whatever [os.cpu_count()] reports (None and 0
    count as 1), a request for at least one worker spawns at least one
    and at most the requested number; with an unknown processor count it
    spawns exactly one. *)
Theorem fresh_pool_spawns_at_least_one hw r count :
  (forall n, hw = Some n -> 0 <= n) ->
  1 <= count ->
  (1 <= length (threads (start_workers count (init hw r))))%nat /\
  Z.of_nat (length (threads (start_workers count (init hw r)))) <= count /\
  (hw = None -> length (threads (start_workers count (init hw r))) = 1%nat).
Proof.
  intros Hhw Hc. rewrite start_workers_eq.
  cbn [threads init self init_analyzer cpu_count app].
  rewrite length_map, range_length.
  destruct hw as [n|].
  - specialize (Hhw n eq_refl). destruct (Z.eqb_spec n 0); split; try lia.
    all: split; [lia|done].
  - split; [lia|]. split; lia.
Qed.

Lemma fresh_pool_spawns_at_least_one_witness :
  (1 <= length (threads (start_workers 3 (init None count_tape))))%nat /\
  Z.of_nat (length (threads (start_workers 3 (init None count_tape)))) <= 3 /\
  (@None Z = None ->
   length (threads (start_workers 3 (init None count_tape))) = 1%nat).
Proof.
  apply (fresh_pool_spawns_at_least_one None count_tape 3); [done|lia].
Defined.

Section Shutdown.


End Shutdown.

(** X16: [run_analysis] never raises and leaves the pool object and its
    threads as they are; it reports 500 hash samples of 16 hex digits
    each, 5000 memory objects, the 40th Fibonacci number, the number of
    primes up to 20000 and the number of worker handles. *)
Theorem run_analysis_report float_str w :
  exists a r',
    run_analysis float_str w = inr (a, MkWorld (self w) (threads w) r') /\
    length (hash_samples a) = 500%nat /\
    Forall (fun e => String.length e = 16%nat /\ is_hex_string e = true)
           (hash_samples a) /\
    memory_objects a = 5000 /\
    fibonacci a = 102334155 /\
    worker_count a = length (workers (self w)) /\
    exists ps,
      primes a = length ps /\
      StronglySorted Z.lt ps /\
      forall p, p ∈ ps <-> is_prime p /\ p <= 20000.
Proof.
  unfold run_analysis, generate_hash_chain.
  destruct (random_random (rng w)) as [x r1].
  pose proof (memory_map_size r1) as Hmo.
  destruct (simulate_memory_operations r1) as [mo r2]. cbn [fst] in Hmo.
  destruct (prime_sieve_correct 20000 ltac:(unfold sieve_bound; lia))
    as (ps & Hps & Hin & Hsorted).
  rewrite Hps. cbn [and_then].
  destruct (hash_chain_loop_format (Z.to_nat 500) (encode (float_str x)))
    as [Hlen Hfmt].
  eexists _, r2. split; [reflexivity|]. cbn [hash_samples memory_objects
    fibonacci primes worker_count].
  split; [exact Hlen|]. split; [exact Hfmt|]. split; [exact Hmo|].
  split; [vm_compute; reflexivity|]. split; [reflexivity|].
  exists ps. split; [reflexivity|]. split; [exact Hsorted|exact Hin].
Qed.

(** X17: a task whose type is any string other than the exact words
    hash, math and sort takes the default branch: the result is the next
    float of the generator, in [0, 1).  The comparison is case-sensitive. *)
Theorem unknown_kind_returns_float ty oid ots wid r :
  ty <> "hash"%string -> ty <> "math"%string -> ty <> "sort"%string ->
  exists k,
    fst (process_task (ItemDict (MkTask (Some ty) oid ots)) wid r)
      = Ok (RFloat k) /\
    k = fst (random_random (after_fields r)) /\
    (0 <= float_value k)%Q /\ (float_value k < 1)%Q.
Proof.
  intros Hh Hm Hs. rewrite process_task_dict. cbn [dict_get].
  rewrite dispatch_default by (by apply String.eqb_neq).
  pose proof (random_random_bound (after_fields r)) as Hb.
  destruct (random_random (after_fields r)) as [k r']. cbn [fst] in *.
  exists k. split; [reflexivity|]. split; [reflexivity|].
  by apply float_value_unit.
Qed.

Lemma unknown_kind_returns_float_witness :
  exists k,
    fst (process_task (ItemDict (MkTask (Some "HASH"%string) (Some 42) None))
           0 count_tape) = Ok (RFloat k) /\
    k = fst (random_random (after_fields count_tape)) /\
    (0 <= float_value k)%Q /\ (float_value k < 1)%Q.
Proof.
  apply (unknown_kind_returns_float "HASH" (Some 42) None 0 count_tape);
    discriminate.
Defined.



(** ** The keys of metrics, by recording worker *)

Section Recording.

Lemma step_writes w a k :
  recorded k (step w a) = recorded k w ++ writes k w a.
Proof.
  destruct a as [x|count| |tid]; cbn [step writes].
  - by rewrite app_nil_r.
  - rewrite start_workers_eq. by rewrite app_nil_r.
  - rewrite stop_workers_eq. by rewrite app_nil_r.
  - unfold worker_function_step.
    destruct (threads w !! tid) as [th|] eqn:Hth; [|by rewrite app_nil_r].
    destruct (th_pc th) as [| |task|res| |e] eqn:Hpc; try by rewrite app_nil_r.
    + destruct (running (self w)); by rewrite app_nil_r.
    + destruct (queue_get (event_queue (self w))) as [[x|e] q];
        by rewrite app_nil_r.
    + destruct (process_task task (th_wid th) (rng w)) as [[res|e] r'];
        by rewrite app_nil_r.
    + unfold recorded. cbn [self metrics with_metrics]. unfold metrics_append.
      case_decide as Hk.
      * subst k. by rewrite lookup_insert_eq.
      * rewrite lookup_insert_ne by done. by rewrite app_nil_r.
Qed.

Lemma run_writes acts : forall w k,
  recorded k (run acts w) = recorded k w ++ written_by k acts w.
Proof.
  induction acts as [|a acts IH]; intros w k.
  - cbn. by rewrite app_nil_r.
  - change (run (a :: acts) w) with (run acts (step w a)).
    cbn [written_by]. by rewrite IH, step_writes, app_assoc.
Qed.

End Recording.

(** C9, as the spec states it, fails: the key under which the result of
    the worker with index 0 is recorded is the string worker_0; no key of
    [metrics] is the index 0 itself, and worker_0 is the numeral of no
    integer. *)
Lemma metrics_key_is_not_the_index :
  recorded "worker_0" world_two = [RStr (Sha256.hexdigest (encode "42"))] /\
  threads world_two !! 0%nat = Some (MkThread 0 true PcCheck) /\
  metrics (self world_two) !! pretty 0 = None /\
  (forall i : Z, "worker_0"%string <> pretty i).
Proof.
  split; [vm_compute; reflexivity|]. split; [vm_compute; reflexivity|].
  split; [vm_compute; reflexivity|].
  intros i Hi. pose proof (pretty_Z_no_underscore i) as Hno.
  rewrite <- Hi in Hno. vm_compute in Hno. discriminate.
Qed.

(** C9, amended: every key under which a result is ever recorded is the
    string [worker_<i>] for the identity i of the worker that recorded
    it.  In every state the pool reaches: the results under a key are
    exactly those recorded, in order, by the workers whose identity has
    that key; a worker about to record does so under the key of its own
    identity and changes nothing else; the identity of a thread is the
    only integer with its key, lies in 0 .. N-1 for N the number of
    workers started, and stays with the thread in every later state; and
    every key present is the key of a started worker. *)
Theorem metrics_keys_are_worker_ids hw r acts :
  (forall k,
     recorded k (run acts (init hw r)) = written_by k acts (init hw r)) /\
  (forall tid th res,
     threads (run acts (init hw r)) !! tid = Some th ->
     th_pc th = PcAppend res ->
     metrics (self (worker_function_step tid (run acts (init hw r)))) =
     <[worker_key (th_wid th) :=
         recorded (worker_key (th_wid th)) (run acts (init hw r)) ++ [res]]>
       (metrics (self (run acts (init hw r))))) /\
  (forall tid th,
     threads (run acts (init hw r)) !! tid = Some th ->
     0 <= th_wid th < Z.of_nat (length (workers (self (run acts (init hw r))))) /\
     (forall i, worker_key i = worker_key (th_wid th) -> i = th_wid th) /\
     (forall more, exists th',
        threads (run more (run acts (init hw r))) !! tid = Some th' /\
        th_wid th' = th_wid th)) /\
  (forall k,
     is_Some (metrics (self (run acts (init hw r))) !! k) ->
     exists tid th,
       threads (run acts (init hw r)) !! tid = Some th /\
       k = worker_key (th_wid th)).
Proof.
  destruct (init_ids_keys hw r) as [Hi0 Hk0].
  destruct (run_ids_keys acts _ Hi0 Hk0) as [Hids Hkeys].
  split; [|split; [|split]].
  - intros k. rewrite run_writes. unfold recorded at 1. cbn.
    by rewrite lookup_empty.
  - intros tid th res Hth Hpc. unfold worker_function_step.
    by rewrite Hth, Hpc.
  - intros tid th Hth. split; [by apply (Hids tid)|].
    split; [intros i Hi; by apply worker_key_inj|].
    intros more. by apply run_keeps_wid.
  - exact Hkeys.
Qed.

(** On the schedule of [world_two]: the one result under worker_0 is the
    one worker 0 recorded, and nothing is under worker_1, whose worker
    died on its task. *)
Example world_two_keys :
  written_by "worker_0" schedule_two pool4
    = [RStr (Sha256.hexdigest (encode "42"))] /\
  recorded "worker_0" world_two = [RStr (Sha256.hexdigest (encode "42"))] /\
  written_by "worker_1" schedule_two pool4 = [] /\
  recorded "worker_1" world_two = [].
Proof. vm_compute. done. Qed.
